(** * Configuration definitions of Clusterio: [lib/config/definitions.js]

    A shallow embedding of the module's top-level statements, of
    [validateGroup], [registerPluginConfigGroups], [finalizeConfigs] and
    [handleConfigCommand], followed by the properties the specification
    states about them.

    JavaScript classes are mutable objects with identity: a config group
    class is created once, mutated by [define] and [finalize], and then
    shared by reference with the Config that registers it.  The embedding
    keeps a store of group classes addressed by reference and threads it,
    together with the three Config classes and a chronological history of
    the calls made, through a state-and-exception monad. *)

From Stdlib Require Import List String Ascii ZArith Bool Arith Lia.
From Stdlib Require Import DecimalString.
Import ListNotations.
Open Scope string_scope.

Set Implicit Arguments.
Set Warnings "-register-all".

(* ================================================================== *)
(** * Exceptions and the state-and-exception monad *)

(** Schema-contract violations raised by [classes.js]. *)
Inductive SchemaViolation : Type :=
| GroupLocked            (* define() on a finalized group *)
| DuplicateField         (* define() of a name the group already has *)
| ConfigLocked           (* registerGroup() on a finalized Config *)
| DuplicateGroup         (* registerGroup() of a name already registered *)
| GroupNotFinalized.     (* registerGroup() of a group that is still open *)

(** The exception values that can travel through this module. *)
Inductive exn : Type :=
| Error (message : string)          (* [new Error(message)] *)
| TypeError (message : string)      (* property access on undefined *)
| InvalidField (message : string)   (* [classes.InvalidField] *)
| InvalidValue (message : string)   (* [classes.InvalidValue] *)
| SchemaError (why : SchemaViolation).

Inductive outcome (A : Type) : Type :=
| Returns (a : A)
| Throws (e : exn).
Arguments Returns {A} a.
Arguments Throws {A} e.

(** A computation over a state [St]: it ends in a state and either returns
    a value or throws. *)
Definition M (St A : Type) : Type := St -> St * outcome A.

Definition ret {St A : Type} (a : A) : M St A :=
  fun s => (s, Returns a).

Definition throw {St A : Type} (e : exn) : M St A :=
  fun s => (s, Throws e).

Definition bind {St A B : Type} (m : M St A) (k : A -> M St B) : M St B :=
  fun s =>
    match m s with
    | (s', Returns a) => k a s'
    | (s', Throws e) => (s', Throws e)
    end.

(** [try { m } catch (err) { handler err }] *)
Definition try_catch {St A : Type} (m : M St A) (handler : exn -> M St A)
  : M St A :=
  fun s =>
    match m s with
    | (s', Returns a) => (s', Returns a)
    | (s', Throws e) => handler e s'
    end.

Definition gets {St A : Type} (f : St -> A) : M St A :=
  fun s => (s, Returns (f s)).

Definition modify {St : Type} (f : St -> St) : M St unit :=
  fun s => (f s, Returns tt).

Declare Scope js_scope.
Delimit Scope js_scope with js.
Notation "x <- m ;; k" := (bind m (fun x => k))
  (at level 100, m at next level, right associativity) : js_scope.
Notation "m ;; k" := (bind m (fun _ => k))
  (at level 100, right associativity) : js_scope.
Open Scope js_scope.

(* ================================================================== *)
(** * JavaScript values *)

(** Numbers are restricted to integers; nothing below computes with them. *)
Inductive jsval : Type :=
| VUndefined
| VNull
| VBool (b : bool)
| VNum (z : Z)
| VStr (s : string)
| VArr (items : list jsval)
| VObj (props : list (string * jsval)).

(** [v === "text"] for a string literal. *)
Definition strict_eq_str (v : jsval) (text : string) : bool :=
  match v with
  | VStr s => String.eqb s text
  | _ => false
  end.

(** [v === undefined] *)
Definition is_undefined (v : jsval) : bool :=
  match v with
  | VUndefined => true
  | _ => false
  end.

(* ================================================================== *)
(** * Data model of the schema *)

Inductive FieldType : Type := TString | TNumber | TBoolean | TObject.

(** The two generator functions used as [initial_value] in this module. *)
Inductive Generator : Type :=
| RandomBase64 (bytes : nat)     (* crypto.randomBytes(n) as base64 *)
| RandomInt31.                   (* Math.random() * 2**31 | 0 *)

Inductive InitialValue : Type :=
| NoInitialValue
| Literal (v : jsval)
| SyncGenerator (g : Generator)
| AsyncGenerator (g : Generator).

(** The object literal passed to [define]. *)
Record FieldSpec : Type := mkField {
  field_name : string;
  title : option string;
  description : option string;
  type : FieldType;
  optional : bool;
  initial_value : InitialValue
}.

(** A definition as stored in a group. *)
Record FieldDefinition : Type := mkDefinition {
  fullName : string;
  item : FieldSpec
}.

(** Which class of [classes.js] a group class extends. *)
Inductive GroupBase : Type := ConfigGroup | PluginConfigGroup.

(** The static state of a config group class.  [groupName] is undefined
    until it is assigned. *)
Record GroupClass : Type := mkGroup {
  extends : GroupBase;
  groupName : option string;
  definitions : list FieldDefinition;
  locked : bool
}.

(** References into the store of group classes. *)
Definition ref : Type := nat.

(** The static state of a Config class: an ordered mapping from group name
    to group class, and the lock. *)
Record Config : Type := mkConfig {
  groups : list (option string * ref);
  configLocked : bool
}.

Inductive ConfigId : Type := MasterConfig | SlaveConfig | InstanceConfig.

(** Calls recorded in the history, in the order they are made. *)
Inductive Event : Type :=
| EvNew (r : ref)                        (* class ... extends ... { } *)
| EvFinalize (r : ref)                   (* G.finalize() *)
| EvRegister (c : ConfigId) (r : ref).   (* C.registerGroup(G) *)

Record Registry : Type := mkRegistry {
  classes : list GroupClass;
  master_config : Config;
  slave_config : Config;
  instance_config : Config;
  history : list Event
}.

Definition config_of (c : ConfigId) (s : Registry) : Config :=
  match c with
  | MasterConfig => master_config s
  | SlaveConfig => slave_config s
  | InstanceConfig => instance_config s
  end.

Definition set_config (c : ConfigId) (cfg : Config) (s : Registry)
  : Registry :=
  match c with
  | MasterConfig =>
      mkRegistry (classes s) cfg (slave_config s) (instance_config s)
                 (history s)
  | SlaveConfig =>
      mkRegistry (classes s) (master_config s) cfg (instance_config s)
                 (history s)
  | InstanceConfig =>
      mkRegistry (classes s) (master_config s) (slave_config s) cfg
                 (history s)
  end.

Definition set_classes (cs : list GroupClass) (s : Registry) : Registry :=
  mkRegistry cs (master_config s) (slave_config s) (instance_config s)
             (history s).

Definition record (e : Event) (s : Registry) : Registry :=
  mkRegistry (classes s) (master_config s) (slave_config s)
             (instance_config s) (history s ++ [e])%list.

Definition lookup (r : ref) (s : Registry) : option GroupClass :=
  nth_error (classes s) r.

Fixpoint replace_nth {A : Type} (n : nat) (x : A) (l : list A) : list A :=
  match l, n with
  | [], _ => []
  | _ :: t, O => x :: t
  | h :: t, S n' => h :: replace_nth n' x t
  end.

(** The state before the module is loaded. *)
Definition empty_config : Config := mkConfig [] false.

Definition initial_registry : Registry :=
  mkRegistry [] empty_config empty_config empty_config [].

(** [o.groupName] for the object a reference denotes.  A reference outside
    the store stands for an object that is not a config group class; its
    [groupName] property is undefined. *)
Definition read_groupName (r : ref) (s : Registry) : option string :=
  match lookup r s with
  | Some g => groupName g
  | None => None
  end.

Definition option_string_eqb (a b : option string) : bool :=
  match a, b with
  | Some x, Some y => String.eqb x y
  | None, None => true
  | _, _ => false
  end.

(* ================================================================== *)
(** * The operations of [classes.js] used by this module *)

(** [class G extends Base { }]: a fresh open class without a name. *)
Definition newClass (base : GroupBase) : M Registry ref :=
  fun s =>
    let r := List.length (classes s) in
    (record (EvNew r)
       (set_classes (classes s ++ [mkGroup base None [] false])%list s),
     Returns r).

Definition update_class (r : ref) (f : GroupClass -> GroupClass)
  : M Registry unit :=
  fun s =>
    match lookup r s with
    | Some g => (set_classes (replace_nth r (f g) (classes s)) s, Returns tt)
    | None => (s, Throws (TypeError "not a config group class"))
    end.

(** [G.groupName = text] *)
Definition assign_groupName (r : ref) (text : string) : M Registry unit :=
  update_class r
    (fun g => mkGroup (extends g) (Some text) (definitions g) (locked g)).

(** String conversion of a possibly undefined name in [a + "." + b]. *)
Definition name_text (n : option string) : string :=
  match n with
  | Some s => s
  | None => "undefined"
  end.

(** Modelled from the spec: [ConfigGroup.define] of [classes.js], which is
    not part of the sources.  It registers a definition on an open group
    under [groupName + "." + name] and fails if the group is locked or
    already has a field of that name. *)
Definition define (r : ref) (spec : FieldSpec) : M Registry unit :=
  fun s =>
    match lookup r s with
    | None => (s, Throws (TypeError "not a config group class"))
    | Some g =>
        if locked g then (s, Throws (SchemaError GroupLocked))
        else if existsb
                  (fun d => String.eqb (field_name (item d))
                                       (field_name spec))
                  (definitions g)
        then (s, Throws (SchemaError DuplicateField))
        else
          let d := mkDefinition
                     (name_text (groupName g) ++ "." ++ field_name spec)
                     spec in
          update_class r
            (fun g => mkGroup (extends g) (groupName g)
                              (definitions g ++ [d])%list (locked g)) s
    end.

(** Modelled from the spec: [ConfigGroup.finalize] of [classes.js], which
    is not part of the sources.  It moves the group from Open to Locked;
    a repeated call changes nothing. *)
Definition finalize (r : ref) : M Registry unit :=
  modify (record (EvFinalize r)) ;;
  update_class r
    (fun g => mkGroup (extends g) (groupName g) (definitions g) true).

(** Modelled from the spec: [Config.registerGroup] of [classes.js], which
    is not part of the sources.  It attaches a finalized group under its
    name and fails if the Config is locked, the group is not finalized, or
    a group of that name is already registered. *)
Definition registerGroup (c : ConfigId) (r : ref) : M Registry unit :=
  modify (record (EvRegister c r)) ;;
  cfg <- gets (config_of c) ;;
  g <- gets (lookup r) ;;
  if configLocked cfg then throw (SchemaError ConfigLocked)
  else
    match g with
    | None => throw (SchemaError GroupNotFinalized)
    | Some g =>
        if negb (locked g) then throw (SchemaError GroupNotFinalized)
        else if existsb (fun e => option_string_eqb (fst e) (groupName g))
                        (groups cfg)
        then throw (SchemaError DuplicateGroup)
        else
          modify (set_config c
                    (mkConfig (groups cfg ++ [(groupName g, r)])%list
                              (configLocked cfg)))
    end.

(** Modelled from the spec: [Config.finalize] of [classes.js], which is not
    part of the sources.  It locks the group set. *)
Definition finalizeConfig (c : ConfigId) : M Registry unit :=
  cfg <- gets (config_of c) ;;
  modify (set_config c (mkConfig (groups cfg) true)).

(* ================================================================== *)
(** * Top-level statements of the module *)

(** The group classes the module exports. *)
Record Exports : Type := mkExports {
  MasterGroup : ref;
  SlaveGroup : ref;
  InstanceGroup : ref;
  FactorioGroup : ref
}.

Definition define_MasterGroup (MasterGroup : ref) : M Registry unit :=
  define MasterGroup
    (mkField "database_directory" (Some "Database directory")
       (Some "Directory where item and configuration data is stored.")
       TString false (Literal (VStr "database"))) ;;
  define MasterGroup
    (mkField "factorio_directory" None
       (Some "Path to directory to look for factorio installs")
       TString false (Literal (VStr "factorio"))) ;;
  define MasterGroup
    (mkField "http_port" (Some "HTTP Port")
       (Some "Port to listen for HTTP connections on, set to null to not listen for HTTP connections.")
       TNumber true NoInitialValue) ;;
  define MasterGroup
    (mkField "https_port" (Some "HTTPS Port")
       (Some "Port to listen for HTTPS connection on, set to null to not listen for HTTPS connections.")
       TNumber true (Literal (VNum 8443))) ;;
  define MasterGroup
    (mkField "web_root" (Some "Web Root")
       (Some "Sub-path to where the web interface is hosted.  Needed when proxying the web interface.")
       TString false (Literal (VStr "/"))) ;;
  define MasterGroup
    (mkField "tls_certificate" (Some "TLS Certificate")
       (Some "Path to the certificate to use for HTTPS.")
       TString true (Literal (VStr "database/certificates/cert.crt"))) ;;
  define MasterGroup
    (mkField "tls_private_key" (Some "TLS Private Key")
       (Some "Path to the private key to use for HTTPS.")
       TString true (Literal (VStr "database/certificates/cert.key"))) ;;
  define MasterGroup
    (mkField "tls_bits" (Some "TLS Bits")
       (Some "Number of bits to use for auto generated TLS certificate.")
       TNumber false (Literal (VNum 2048))) ;;
  define MasterGroup
    (mkField "auth_secret" (Some "Master Authentication Secret")
       (Some ("Secret used to generate and verify authentication tokens."
              ++ "  Should be a long string of random letters and numbers."
              ++ "  Do not share this."))
       TString false (AsyncGenerator (RandomBase64 256))) ;;
  define MasterGroup
    (mkField "heartbeat_interval" (Some "Heartbeat Interval")
       (Some "Interval heartbeats are sent out on WebSocket connections")
       TNumber false (Literal (VNum 60))) ;;
  define MasterGroup
    (mkField "connector_shutdown_timeout" (Some "Connector Shutdown Timeout")
       (Some "Timeout in seconds for connectors to properly disconnect on shutdown")
       TNumber false (Literal (VNum 30))).

Definition define_SlaveGroup (SlaveGroup : ref) : M Registry unit :=
  define SlaveGroup
    (mkField "name" None (Some "Name of the slave")
       TString false (Literal (VStr "New Slave"))) ;;
  define SlaveGroup
    (mkField "id" None (Some "ID of the slave")
       TNumber false (SyncGenerator RandomInt31)) ;;
  define SlaveGroup
    (mkField "factorio_directory" None
       (Some "Path to directory to look for factorio installs")
       TString false (Literal (VStr "factorio"))) ;;
  define SlaveGroup
    (mkField "instances_directory" None
       (Some "Path to directory to store instances in.")
       TString false (Literal (VStr "instances"))) ;;
  define SlaveGroup
    (mkField "master_url" None
       (Some "URL to connect to the master server at")
       TString false (Literal (VStr "https://localhost:8443/"))) ;;
  define SlaveGroup
    (mkField "master_token" None
       (Some "Token to authenticate to master server with.")
       TString false (Literal (VStr "enter token here"))) ;;
  define SlaveGroup
    (mkField "public_address" None
       (Some "Public facing address players should connect to in order to join instances on this slave")
       TString false (Literal (VStr "localhost"))) ;;
  define SlaveGroup
    (mkField "reconnect_delay" (Some "Reconnect Delay")
       (Some "Maximum delay to wait before attempting to reconnect WebSocket")
       TNumber false (Literal (VNum 5))).

Definition define_InstanceGroup (InstanceGroup : ref) : M Registry unit :=
  define InstanceGroup
    (mkField "name" None None TString false
       (Literal (VStr "New Instance"))) ;;
  define InstanceGroup
    (mkField "id" None (Some "ID of the slave")
       TNumber false (SyncGenerator RandomInt31)) ;;
  define InstanceGroup
    (mkField "assigned_slave" None None TNumber true NoInitialValue).

Definition define_FactorioGroup (FactorioGroup : ref) : M Registry unit :=
  define FactorioGroup
    (mkField "version" None
       (Some "Version of the game to run, use latest to run the latest installed version")
       TString false (Literal (VStr "latest"))) ;;
  define FactorioGroup
    (mkField "game_port" None
       (Some "UDP port to run game on, uses a random port if null")
       TNumber true NoInitialValue) ;;
  define FactorioGroup
    (mkField "rcon_port" None
       (Some "TCP port to run RCON on, uses a random port if null")
       TNumber true NoInitialValue) ;;
  define FactorioGroup
    (mkField "rcon_password" None
       (Some "Password for RCON, randomly generated if null")
       TString true NoInitialValue) ;;
  define FactorioGroup
    (mkField "settings" None
       (Some "Settings overridden in server-settings.json")
       TObject false
       (Literal (VObj [("tags", VArr [VStr "clusterio"]);
                       ("auto_pause", VBool false)]))).

(** The statements of the module from its first line down to
    [validateGroup], in source order. *)
Definition load_module : M Registry Exports :=
  MasterGroup <- newClass ConfigGroup ;;
  assign_groupName MasterGroup "master" ;;
  define_MasterGroup MasterGroup ;;
  finalize MasterGroup ;;
  registerGroup MasterConfig MasterGroup ;;

  SlaveGroup <- newClass ConfigGroup ;;
  assign_groupName SlaveGroup "slave" ;;
  define_SlaveGroup SlaveGroup ;;
  finalize SlaveGroup ;;
  registerGroup SlaveConfig SlaveGroup ;;

  InstanceGroup <- newClass ConfigGroup ;;
  assign_groupName InstanceGroup "instance" ;;
  define_InstanceGroup InstanceGroup ;;
  finalize InstanceGroup ;;

  FactorioGroup <- newClass ConfigGroup ;;
  assign_groupName FactorioGroup "factorio" ;;
  define_FactorioGroup FactorioGroup ;;
  finalize FactorioGroup ;;

  registerGroup InstanceConfig InstanceGroup ;;
  registerGroup InstanceConfig FactorioGroup ;;
  ret (mkExports MasterGroup SlaveGroup InstanceGroup FactorioGroup).

(* ================================================================== *)
(** * Plugin registration *)

(** A plugin descriptor.  An absent property is [None]; a group property
    holds a reference to the class the plugin supplies. *)
Record PluginInfo : Type := mkPluginInfo {
  name : string;
  MasterConfigGroup : option ref;
  InstanceConfigGroup : option ref;
  instanceEntrypoint : option string
}.

(** The two property names [validateGroup] is called with. *)
Inductive GroupKey : Type := KeyMasterConfigGroup | KeyInstanceConfigGroup.

Definition key_text (k : GroupKey) : string :=
  match k with
  | KeyMasterConfigGroup => "MasterConfigGroup"
  | KeyInstanceConfigGroup => "InstanceConfigGroup"
  end.

(** [pluginInfo[groupKey]] *)
Definition get_group (pluginInfo : PluginInfo) (groupKey : GroupKey)
  : option ref :=
  match groupKey with
  | KeyMasterConfigGroup => MasterConfigGroup pluginInfo
  | KeyInstanceConfigGroup => InstanceConfigGroup pluginInfo
  end.

(** Truthiness of a property holding a class or undefined. *)
Definition truthy_ref (v : option ref) : bool :=
  match v with
  | Some _ => true
  | None => false
  end.

(** Truthiness of a property holding a string or undefined: the empty
    string is falsy. *)
Definition truthy_string (v : option string) : bool :=
  match v with
  | Some s => negb (String.eqb s "")
  | None => false
  end.

(** [b instanceof classes.PluginConfigGroup] for a primitive boolean [b]:
    the left operand is not an object, so the result is false. *)
Definition boolean_instanceof_PluginConfigGroup (b : bool) : bool := false.

(** [validateGroup(pluginInfo, groupName)].  In the first condition the
    unary [!] binds tighter than [instanceof]: the operand of [instanceof]
    is the boolean [!pluginInfo[groupName]]. *)
Definition validateGroup (pluginInfo : PluginInfo) (groupKey : GroupKey)
  : M Registry unit :=
  (if boolean_instanceof_PluginConfigGroup
        (negb (truthy_ref (get_group pluginInfo groupKey)))
   then throw (Error ("Expected " ++ key_text groupKey ++ " for "
                      ++ name pluginInfo
                      ++ " to be an instance of PluginConfigGroup"))
   else ret tt) ;;
  match get_group pluginInfo groupKey with
  | None => throw (TypeError "Cannot read property 'groupName' of undefined")
  | Some r =>
      n <- gets (read_groupName r) ;;
      if negb (option_string_eqb n (Some (name pluginInfo)))
      then throw (Error ("Expected " ++ key_text groupKey ++ " for "
                         ++ name pluginInfo
                         ++ " to be named after the plugin"))
      else ret tt
  end.

(** The first half of the loop body: the Master config. *)
Definition register_master (pluginInfo : PluginInfo) : M Registry unit :=
  match MasterConfigGroup pluginInfo with
  | Some supplied =>
      validateGroup pluginInfo KeyMasterConfigGroup ;;
      registerGroup MasterConfig supplied
  | None =>
      MasterConfigGroup <- newClass PluginConfigGroup ;;
      assign_groupName MasterConfigGroup (name pluginInfo) ;;
      finalize MasterConfigGroup ;;
      registerGroup MasterConfig MasterConfigGroup
  end.

(** The second half of the loop body: the Instance config. *)
Definition register_instance (pluginInfo : PluginInfo) : M Registry unit :=
  if truthy_string (instanceEntrypoint pluginInfo) then
    match InstanceConfigGroup pluginInfo with
    | Some supplied =>
        validateGroup pluginInfo KeyInstanceConfigGroup ;;
        registerGroup InstanceConfig supplied
    | None =>
        InstanceConfigGroup <- newClass PluginConfigGroup ;;
        assign_groupName InstanceConfigGroup (name pluginInfo) ;;
        finalize InstanceConfigGroup ;;
        registerGroup InstanceConfig InstanceConfigGroup
    end
  else ret tt.

(** One iteration of the loop. *)
Definition register_plugin (pluginInfo : PluginInfo) : M Registry unit :=
  register_master pluginInfo ;;
  register_instance pluginInfo.

(** [registerPluginConfigGroups(pluginInfos)] *)
Fixpoint registerPluginConfigGroups (pluginInfos : list PluginInfo)
  : M Registry unit :=
  match pluginInfos with
  | [] => ret tt
  | pluginInfo :: rest =>
      register_plugin pluginInfo ;;
      registerPluginConfigGroups rest
  end.

(** [finalizeConfigs()] *)
Definition finalizeConfigs : M Registry unit :=
  finalizeConfig MasterConfig ;;
  finalizeConfig SlaveConfig ;;
  finalizeConfig InstanceConfig.

(** The registry once the module is loaded. *)
Definition loaded_registry : Registry := fst (load_module initial_registry).

(* ================================================================== *)
(** * The config command *)

(** The arguments object yargs hands to the handler: [args._],
    [args.field] and [args.value].  An absent property is undefined. *)
Record Args : Type := mkArgs {
  positionals : list jsval;      (* args._ *)
  field : jsval;
  value : jsval
}.

(** Modelled from the spec: the interface of a Config instance of
    [classes.js], which is not part of the sources.  [get] returns the
    current value or throws; [set] validates and assigns or throws;
    [serialize] produces the document of all current values.  The groups
    are those of the instance's class. *)
Record ConfigInstance (St : Type) : Type := mkInstance {
  constructor_groups : list GroupClass;
  get : jsval -> St -> outcome jsval;
  set : jsval -> jsval -> M St unit;
  serialize : St -> jsval
}.

(** What the handler does to its surroundings, in order. *)
Inductive Action : Type :=
| CallGet (field : jsval)                 (* instance.get(field) *)
| CallSet (field value : jsval)           (* instance.set(field, value) *)
| CallSerialize                           (* instance.serialize() *)
| ConsoleLog (v : jsval)                  (* console.log(v) *)
| ConsoleError (message : string)         (* console.error(message) *)
| OutputFile (path data : string).        (* fs.outputFile(path, data) *)

(** The file system as far as [fs.outputFile] is concerned: the text of
    the files, and the paths at which a write fails (a directory, a file
    that may not be written, ...) with the message of the error the write
    fails with. *)
Record Files : Type := mkFiles {
  contents : list (string * string);
  refused : list (string * string)
}.

Definition write_error (path : string) (fs : Files) : option string :=
  option_map snd (find (fun e => String.eqb (fst e) path) (refused fs)).

Definition write_file (path data : string) (fs : Files) : Files :=
  mkFiles
    ((path, data)
       :: filter (fun e => negb (String.eqb (fst e) path)) (contents fs))
    (refused fs).

Definition read_file (path : string) (fs : Files) : option string :=
  option_map snd (find (fun e => String.eqb (fst e) path) (contents fs)).

(** The state the handler runs in: the values of the instance, the files
    and the actions performed so far. *)
Record World (St : Type) : Type := mkWorld {
  values : St;
  files : Files;
  trace : list Action
}.

Section ConfigCommand.

Variable St : Type.

(** [JSON.stringify(v)] inside a template literal, and
    [JSON.stringify(v, null, indent)]: built-ins of the language. *)
Variable stringify : jsval -> string.
Variable stringify_indented : nat -> jsval -> string.

Definition act (a : Action) : M (World St) unit :=
  modify (fun w => mkWorld (values w) (files w) (trace w ++ [a])%list).

Definition console_log (v : jsval) : M (World St) unit :=
  act (ConsoleLog v).

Definition console_error (message : string) : M (World St) unit :=
  act (ConsoleError message).

(** [await fs.outputFile(path, data)]: the write is carried out, or the
    promise is rejected with the error of the file system. *)
Definition outputFile (path data : string) : M (World St) unit :=
  act (OutputFile path data) ;;
  fun w =>
    match write_error path (files w) with
    | Some message => (w, Throws (Error message))
    | None =>
        (mkWorld (values w) (write_file path data (files w)) (trace w),
         Returns tt)
    end.

Definition instance_get (instance : ConfigInstance St) (f : jsval)
  : M (World St) jsval :=
  act (CallGet f) ;;
  fun w => (w, get instance f (values w)).

Definition instance_set (instance : ConfigInstance St) (f v : jsval)
  : M (World St) unit :=
  act (CallSet f v) ;;
  fun w =>
    let (st, o) := set instance f v (values w) in
    (mkWorld st (files w) (trace w), o).

Definition instance_serialize (instance : ConfigInstance St)
  : M (World St) jsval :=
  act CallSerialize ;;
  gets (fun w => serialize instance (values w)).

(** [for (let x of xs) { body x }] *)
Fixpoint for_of {A : Type} (xs : list A) (body : A -> M (World St) unit)
  : M (World St) unit :=
  match xs with
  | [] => ret tt
  | x :: rest => body x ;; for_of rest body
  end.

(** [handleConfigCommand(args, instance, configPath)].  The function is
    asynchronous; a thrown exception is the rejection of its promise. *)
Definition handleConfigCommand (args : Args)
           (instance : ConfigInstance St) (configPath : string)
  : M (World St) unit :=
  let command := nth 1 (positionals args) VUndefined in
  if strict_eq_str command "list" then
    for_of (constructor_groups instance) (fun GroupClass =>
      for_of (definitions GroupClass) (fun def =>
        value <- instance_get instance (VStr (fullName def)) ;;
        console_log (VStr (fullName def ++ " " ++ stringify value))))

  else if strict_eq_str command "show" then
    try_catch
      (v <- instance_get instance (field args) ;;
       console_log v)
      (fun err =>
         match err with
         | InvalidField message => console_error message
         | _ => throw err
         end)

  else if strict_eq_str command "set" then
    let args :=
      if is_undefined (value args)
      then mkArgs (positionals args) (field args) VNull
      else args in
    try_catch
      (instance_set instance (field args) (value args) ;;
       document <- instance_serialize instance ;;
       outputFile configPath (stringify_indented 4 document))
      (fun err =>
         match err with
         | InvalidField message => console_error message
         | InvalidValue message => console_error message
         | _ => throw err
         end)

  else ret tt.

End ConfigCommand.

(* ================================================================== *)
(** * An example instance *)

(** The current values of an instance, by full name. *)
Definition Values : Type := list (string * jsval).

Definition find_definition (n : string) (gs : list GroupClass)
  : option FieldDefinition :=
  find (fun d => String.eqb (fullName d) n) (flat_map definitions gs).

Definition current_value (n : string) (st : Values) : jsval :=
  match find (fun e => String.eqb (fst e) n) st with
  | Some e => snd e
  | None => VUndefined
  end.

Definition assign_value (n : string) (v : jsval) (st : Values) : Values :=
  (n, v) :: filter (fun e => negb (String.eqb (fst e) n)) st.

(** A decimal integer: an optional minus sign and at least one digit. *)
Definition integer_of_string (s : string) : option Z :=
  if String.eqb s "" || String.eqb s "-" then None
  else option_map Z.of_int (NilEmpty.int_of_string s).

(** Validation for the example instance below.  It follows section 4.1 of
    the specification over integers only, since [VNum] carries an
    integer: null or an absent value is accepted for optional fields
    only; a number field accepts a number or a string that is a decimal
    integer, which it converts (a string with a fraction or an exponent,
    which JavaScript would convert, is rejected here); a string field
    requires a string, a boolean field a boolean; an object field accepts
    any value.  The result is the value to store, or nothing when the
    value is rejected. *)
Definition validate (d : FieldDefinition) (v : jsval) : option jsval :=
  match v with
  | VNull | VUndefined => if optional (item d) then Some VNull else None
  | _ =>
      match type (item d), v with
      | TString, VStr _ => Some v
      | TNumber, VNum _ => Some v
      | TNumber, VStr s => option_map VNum (integer_of_string s)
      | TBoolean, VBool _ => Some v
      | TObject, _ => Some v
      | _, _ => None
      end
  end.

(** An example of an object with the interface of a Config instance, over
    the groups [gs], to run the command on concrete inputs: [get] throws
    InvalidField for a name that no definition has, [set] in addition
    InvalidValue for a value [validate] rejects, and [serialize] gives
    the values by full name.  The name of the field stands for the text
    of the messages. *)
Definition config_instance (gs : list GroupClass) : ConfigInstance Values :=
  mkInstance gs
    (fun f st =>
       match f with
       | VStr n =>
           match find_definition n gs with
           | Some _ => Returns (current_value n st)
           | None => Throws (InvalidField n)
           end
       | _ => Throws (InvalidField "")
       end)
    (fun f v st =>
       match f with
       | VStr n =>
           match find_definition n gs with
           | Some d =>
               match validate d v with
               | Some v' => (assign_value n v' st, Returns tt)
               | None => (st, Throws (InvalidValue n))
               end
           | None => (st, Throws (InvalidField n))
           end
       | _ => (st, Throws (InvalidField ""))
       end)
    (fun st => VObj st).

(** The groups of InstanceConfig once the module is loaded, and an
    instance of it. *)
Definition instance_groups : list GroupClass :=
  flat_map (fun e => match lookup (snd e) loaded_registry with
                     | Some g => [g]
                     | None => []
                     end)
           (groups (instance_config loaded_registry)).

Definition example_instance : ConfigInstance Values :=
  config_instance instance_groups.

Definition example_world : World Values :=
  mkWorld [("instance.name", VStr "New Instance");
           ("instance.id", VNum 7);
           ("instance.assigned_slave", VNull);
           ("factorio.version", VStr "latest");
           ("factorio.game_port", VNull);
           ("factorio.rcon_port", VNull);
           ("factorio.rcon_password", VNull);
           ("factorio.settings",
            VObj [("tags", VArr [VStr "clusterio"]);
                  ("auto_pause", VBool false)])]
          (mkFiles [] []) [].

(** A one-line rendering of values, without escaping, to run the command
    on examples; it stands in for [JSON.stringify] there. *)
Fixpoint plain_json (v : jsval) : string :=
  match v with
  | VUndefined => "undefined"
  | VNull => "null"
  | VBool true => "true"
  | VBool false => "false"
  | VNum z => NilEmpty.string_of_int (Z.to_int z)
  | VStr s => String (ascii_of_nat 34) (s ++ String (ascii_of_nat 34) "")
  | VArr items =>
      "[" ++ (fix join (l : list jsval) : string :=
                match l with
                | [] => ""
                | [x] => plain_json x
                | x :: rest => plain_json x ++ "," ++ join rest
                end) items ++ "]"
  | VObj props =>
      "{" ++ (fix join (l : list (string * jsval)) : string :=
                match l with
                | [] => ""
                | [(k, x)] =>
                    String (ascii_of_nat 34)
                           (k ++ String (ascii_of_nat 34) ":")
                    ++ plain_json x
                | (k, x) :: rest =>
                    String (ascii_of_nat 34)
                           (k ++ String (ascii_of_nat 34) ":")
                    ++ plain_json x ++ "," ++ join rest
                end) props ++ "}"
  end.

(* ================================================================== *)
(** * Definitions used to state the properties *)

(** The message of the name check. *)
Definition not_named_after (groupKey : GroupKey) (pluginInfo : PluginInfo)
  : string :=
  "Expected " ++ key_text groupKey ++ " for " ++ name pluginInfo
  ++ " to be named after the plugin".

(** What [registerGroup] does once the call is recorded. *)
Definition attach (c : ConfigId) (r : ref) (s1 : Registry)
  : Registry * outcome unit :=
  let cfg := config_of c s1 in
  if configLocked cfg then (s1, Throws (SchemaError ConfigLocked))
  else
    match lookup r s1 with
    | None => (s1, Throws (SchemaError GroupNotFinalized))
    | Some g =>
        if negb (locked g) then (s1, Throws (SchemaError GroupNotFinalized))
        else if existsb (fun e => option_string_eqb (fst e) (groupName g))
                        (groups cfg)
        then (s1, Throws (SchemaError DuplicateGroup))
        else (set_config c
                (mkConfig (groups cfg ++ [(groupName g, r)])%list
                          (configLocked cfg)) s1,
              Returns tt)
    end.

(** The class synthesized for a plugin that supplies none. *)
Definition synthesized (n : string) : GroupClass :=
  mkGroup PluginConfigGroup (Some n) [] true.

(** The four statements of an [else] branch of the loop body. *)
Definition synthesize_and_register (c : ConfigId) (n : string)
  : M Registry unit :=
  G <- newClass PluginConfigGroup ;;
  assign_groupName G n ;;
  finalize G ;;
  registerGroup c G.

Definition after_synthesis (n : string) (s : Registry) : Registry :=
  mkRegistry (classes s ++ [synthesized n])%list
             (master_config s) (slave_config s) (instance_config s)
             (history s ++ [EvNew (List.length (classes s));
                            EvFinalize (List.length (classes s))])%list.

(** [has_group n cfg]: some group is registered under the name [n]. *)
Definition has_group (n : string) (cfg : Config) : bool :=
  existsb (fun e => option_string_eqb (fst e) (Some n)) (groups cfg).

(** The number of groups registered under the name [n]. *)
Definition count_groups (n : string) (cfg : Config) : nat :=
  List.length
    (filter (fun e => option_string_eqb (fst e) (Some n)) (groups cfg)).

(** The names under which groups are registered, in order. *)
Definition group_names (cfg : Config) : list (option string) :=
  map fst (groups cfg).

(** The possible courses of one half of the loop body, for the Config [c]
    and a plugin named [n]: validation throws and nothing has happened; a
    supplied class passes validation and is handed to [registerGroup]; or
    a class is synthesized, finalized and handed to [registerGroup]. *)
Inductive registers (c : ConfigId) (n : string) (s : Registry)
  : Registry -> outcome unit -> Prop :=
| reg_invalid (message : string) :
    registers c n s s (Throws (Error message))
| reg_supplied (r : ref) (g : GroupClass) (s' : Registry)
               (o : outcome unit) :
    lookup r s = Some g ->
    groupName g = Some n ->
    attach c r (record (EvRegister c r) s) = (s', o) ->
    registers c n s s' o
| reg_synthesized (s' : Registry) (o : outcome unit) :
    attach c (List.length (classes s))
           (record (EvRegister c (List.length (classes s)))
                   (after_synthesis n s)) = (s', o) ->
    registers c n s s' o.

(** The registry only grows: classes, history and group lists are
    extended at their end, and locks do not move. *)
Record evolves (s s' : Registry) : Prop := mkEvolves {
  ev_classes : exists extra, classes s' = (classes s ++ extra)%list;
  ev_history : exists new, history s' = (history s ++ new)%list;
  ev_groups : forall c, exists added,
      groups (config_of c s') = (groups (config_of c s) ++ added)%list;
  ev_locked : forall c,
      configLocked (config_of c s') = configLocked (config_of c s);
  ev_slave : slave_config s' = slave_config s
}.

Definition is_register (e : Event) : bool :=
  match e with
  | EvRegister _ _ => true
  | _ => false
  end.

(** A [registerGroup] call on InstanceConfig. *)
Definition is_instance_register (e : Event) : bool :=
  match e with
  | EvRegister InstanceConfig _ => true
  | _ => false
  end.

(** In [events], every [registerGroup] call on a class that satisfies
    [own] comes after a [finalize] call on the same class. *)
Definition finalize_precedes_register (own : ref -> Prop)
           (events : list Event) : Prop :=
  forall h1 h2 c r,
    events = (h1 ++ EvRegister c r :: h2)%list ->
    own r -> In (EvFinalize r) h1.

(** A checker for concrete histories; [done] holds the classes finalized
    so far. *)
Fixpoint finalized_first (done : list ref) (events : list Event) : bool :=
  match events with
  | [] => true
  | EvNew _ :: rest => finalized_first done rest
  | EvFinalize r :: rest => finalized_first (r :: done) rest
  | EvRegister _ r :: rest =>
      existsb (Nat.eqb r) done && finalized_first done rest
  end.

(** The invariant of a run that started in [s0] and has reached [s]:
    the classes created since are exactly those announced by [EvNew],
    each is finalized, and finalize precedes register for them. *)
Definition well_finalized (s0 s : Registry) : Prop :=
  exists new,
    history s = (history s0 ++ new)%list /\
    List.length (classes s0) <= List.length (classes s) /\
    finalize_precedes_register
      (fun r => List.length (classes s0) <= r) new /\
    (forall r, List.length (classes s0) <= r ->
               r < List.length (classes s) -> In (EvFinalize r) new) /\
    (forall r, In (EvNew r) new -> List.length (classes s0) <= r).

(** The reading of C8 as it is worded: once validation throws for a
    descriptor, the Configs are those the earlier descriptors left. *)
Definition nothing_registered_from_failing_descriptor : Prop :=
  forall (before after : list PluginInfo) (pluginInfo : PluginInfo)
         (s s1 s2 : Registry) (message : string),
    registerPluginConfigGroups before s = (s1, Returns tt) ->
    register_plugin pluginInfo s1 = (s2, Throws (Error message)) ->
    forall sf o,
      registerPluginConfigGroups (before ++ pluginInfo :: after) s
      = (sf, o) ->
      master_config sf = master_config s1 /\
      instance_config sf = instance_config s1.

(** The reading of C3 as it is worded: after a call, every plugin of the
    list that supplied no MasterConfigGroup has exactly one group under
    its name in MasterConfig. *)
Definition every_plugin_without_group_gets_one : Prop :=
  forall (pluginInfos : list PluginInfo) (s s' : Registry)
         (o : outcome unit),
    registerPluginConfigGroups pluginInfos s = (s', o) ->
    forall p, In p pluginInfos ->
      MasterConfigGroup p = None ->
      count_groups (name p) (master_config s') = 1.

(** The reading of C4 as it is worded: a call on one descriptor adds a
    group under the plugin's name to InstanceConfig exactly when the
    descriptor has an [instanceEntrypoint]. *)
Definition instance_group_iff_entrypoint : Prop :=
  forall (p : PluginInfo) (s s' : Registry) (o : outcome unit),
    registerPluginConfigGroups [p] s = (s', o) ->
    (truthy_string (instanceEntrypoint p) = true <->
     exists r, groups (instance_config s')
               = (groups (instance_config s)
                  ++ [(Some (name p), r)])%list).

(** What a plugin module does to supply a group of its own: a class that
    extends [PluginConfigGroup], named after the plugin [p], with one
    field. *)
Definition plugin_defines_plugin_group : M Registry ref :=
  G <- newClass PluginConfigGroup ;;
  assign_groupName G "p" ;;
  define G (mkField "enabled" None None TBoolean false
                    (Literal (VBool true))) ;;
  finalize G ;;
  ret G.

Definition registry_with_plugin_group : Registry :=
  fst (plugin_defines_plugin_group loaded_registry).

(** What a plugin module does to supply a group that extends
    [ConfigGroup] directly, named after the plugin [p]. *)
Definition plugin_defines_plain_group : M Registry ref :=
  G <- newClass ConfigGroup ;;
  assign_groupName G "p" ;;
  finalize G ;;
  ret G.

Definition registry_with_plain_group : Registry :=
  fst (plugin_defines_plain_group loaded_registry).

(** [args._[1]] *)
Definition command_of (args : Args) : jsval :=
  nth 1 (positionals args) VUndefined.

(** The value handed to [instance.set]. *)
Definition value_to_set (args : Args) : jsval :=
  if is_undefined (value args) then VNull else value args.

Definition is_call_set (a : Action) : bool :=
  match a with
  | CallSet _ _ => true
  | _ => false
  end.



(** An object whose [get] fails with an error that is not InvalidField. *)
Definition broken_instance : ConfigInstance Values :=
  mkInstance []
    (fun _ _ => Throws (TypeError "this._values is undefined"))
    (fun _ _ st => (st, Throws (TypeError "this._values is undefined")))
    (fun st => VObj st).

(* ================================================================== *)
(** * The yargs builder of the config command *)

(** The part of a yargs builder that [configCommand] acts on: the commands
    declared so far, each with its usage string and description, the
    demand on the number of commands, and strict mode. *)
Record Yargs : Type := mkYargs {
  declared : list (string * string);
  demanded : option (nat * string);
  strict_mode : bool
}.

(** [yargs.command(usage, description)] *)
Definition yargs_command (usage description : string) (yargs : Yargs)
  : Yargs :=
  mkYargs (declared yargs ++ [(usage, description)])%list
          (demanded yargs) (strict_mode yargs).

(** [yargs.demandCommand(min, message)] *)
Definition yargs_demandCommand (min : nat) (message : string)
           (yargs : Yargs) : Yargs :=
  mkYargs (declared yargs) (Some (min, message)) (strict_mode yargs).

(** [yargs.strict()] *)
Definition yargs_strict (yargs : Yargs) : Yargs :=
  mkYargs (declared yargs) (demanded yargs) true.

(** [configCommand(yargs)]: the chain of calls, first call innermost. *)
Definition configCommand (yargs : Yargs) : Yargs :=
  yargs_strict
    (yargs_demandCommand 1 "You need to specify a command to run"
       (yargs_command "list"
                      "List all configuration fields and their values"
          (yargs_command "show <field>"
                         "Show value of the given config field"
             (yargs_command "set <field> [value]" "Set config field"
                            yargs)))).

(** The command word of a usage string: its text up to the first space. *)
Fixpoint command_word (usage : string) : string :=
  match usage with
  | EmptyString => EmptyString
  | String c rest =>
      if Ascii.eqb c " "%char then EmptyString
      else String c (command_word rest)
  end.

(* ================================================================== *)
(** * Further definitions used to state properties *)

(** A supplied group that [registerGroup] will accept under the name [n]:
    a finalized class of the store whose [groupName] is [n]. *)
Definition valid_supply (n : string) (supplied : option ref)
           (s : Registry) : Prop :=
  match supplied with
  | None => True
  | Some r =>
      exists g, lookup r s = Some g /\ groupName g = Some n /\
                locked g = true
  end.

(** What a descriptor needs in the registry [s] for its iteration to go
    through: its name is free in the Configs it goes to and the groups it
    supplies are acceptable. *)
Definition registrable (p : PluginInfo) (s : Registry) : Prop :=
  has_group (name p) (master_config s) = false /\
  valid_supply (name p) (MasterConfigGroup p) s /\
  (truthy_string (instanceEntrypoint p) = true ->
   has_group (name p) (instance_config s) = false /\
   valid_supply (name p) (InstanceConfigGroup p) s).

(** A literal default of the declared type. *)
Definition literal_has_type (t : FieldType) (v : jsval) : bool :=
  match t, v with
  | TString, VStr _ => true
  | TNumber, VNum _ => true
  | TBoolean, VBool _ => true
  | TObject, VObj _ => true
  | _, _ => false
  end.

(** A generator that produces a value of the declared type. *)
Definition generator_has_type (t : FieldType) (g : Generator) : bool :=
  match t, g with
  | TNumber, RandomInt31 => true
  | TString, RandomBase64 _ => true
  | _, _ => false
  end.

(** A field whose default fits it: a default of the declared type, or no
    default on an optional field. *)
Definition default_fits (f : FieldSpec) : bool :=
  match initial_value f with
  | NoInitialValue => optional f
  | Literal v => literal_has_type (type f) v
  | SyncGenerator g => generator_has_type (type f) g
  | AsyncGenerator g => generator_has_type (type f) g
  end.

(** Pairwise distinct strings. *)
Fixpoint distinct (l : list string) : bool :=
  match l with
  | [] => true
  | x :: rest => negb (existsb (String.eqb x) rest) && distinct rest
  end.

(** The definitions the "list" command walks through, in order. *)
Definition all_definitions {St : Type} (instance : ConfigInstance St)
  : list FieldDefinition :=
  flat_map definitions (constructor_groups instance).

(** What the "list" command does for one definition: the call of [get]
    and, if it returns, the line printed. *)
Definition listed {St : Type} (stringify : jsval -> string)
           (instance : ConfigInstance St) (st : St) (d : FieldDefinition)
  : list Action :=
  match get instance (VStr (fullName d)) st with
  | Returns v =>
      [CallGet (VStr (fullName d));
       ConsoleLog (VStr (fullName d ++ " " ++ stringify v))]
  | Throws _ => [CallGet (VStr (fullName d))]
  end.

(** An object whose class lists the groups of InstanceConfig but whose
    [get] and [set] know the fields of the first group only. *)
Definition stale_instance : ConfigInstance Values :=
  mkInstance instance_groups
    (get (config_instance (firstn 1 instance_groups)))
    (set (config_instance (firstn 1 instance_groups)))
    (serialize (config_instance (firstn 1 instance_groups))).

(** The body of the inner loop of the "list" command. *)
Definition list_body {St : Type} (stringify : jsval -> string)
           (instance : ConfigInstance St) (def : FieldDefinition)
  : M (World St) unit :=
  value <- instance_get instance (VStr (fullName def)) ;;
  console_log (VStr (fullName def ++ " " ++ stringify value)).

(* ================================================================== *)
(** * Equations of the registration steps *)

Lemma bind_eq {St A B : Type} (m : M St A) (k : A -> M St B) (s : St) :
  bind m k s =
  match m s with
  | (s', Returns a) => k a s'
  | (s', Throws e) => (s', Throws e)
  end.
Proof. reflexivity. Qed.

Lemma bind_returns {St A B : Type} (m : M St A) (k : A -> M St B)
      (s s' : St) (a : A) :
  m s = (s', Returns a) -> bind m k s = k a s'.
Proof. intros H. unfold bind. rewrite H. reflexivity. Qed.

Lemma bind_throws {St A B : Type} (m : M St A) (k : A -> M St B)
      (s s' : St) (e : exn) :
  m s = (s', Throws e) -> bind m k s = (s', Throws e).
Proof. intros H. unfold bind. rewrite H. reflexivity. Qed.

Lemma replace_nth_length {A : Type} (l t : list A) (x y : A) :
  replace_nth (List.length l) x (l ++ y :: t)%list = (l ++ x :: t)%list.
Proof.
  induction l as [|h l IH]; simpl.
  - reflexivity.
  - rewrite IH. reflexivity.
Qed.

Lemma nth_error_length {A : Type} (l t : list A) (x : A) :
  nth_error (l ++ x :: t)%list (List.length l) = Some x.
Proof.
  induction l as [|h l IH]; simpl; [reflexivity | exact IH].
Qed.

Lemma option_string_eqb_eq (a b : option string) :
  option_string_eqb a b = true <-> a = b.
Proof.
  destruct a as [x|], b as [y|]; simpl; split; intros H;
    try discriminate; try reflexivity.
  - apply String.eqb_eq in H. subst. reflexivity.
  - inversion H. apply String.eqb_refl.
Qed.

Lemma option_string_eqb_neq (a b : option string) :
  option_string_eqb a b = false <-> a <> b.
Proof.
  split.
  - intros H E. apply option_string_eqb_eq in E. congruence.
  - intros H. destruct (option_string_eqb a b) eqn:E; [|reflexivity].
    apply option_string_eqb_eq in E. contradiction.
Qed.

Lemma registerGroup_eq (c : ConfigId) (r : ref) (s : Registry) :
  registerGroup c r s = attach c r (record (EvRegister c r) s).
Proof.
  unfold registerGroup, attach, bind, modify, gets, throw.
  destruct (configLocked (config_of c (record (EvRegister c r) s)));
    [reflexivity|].
  destruct (lookup r (record (EvRegister c r) s)) as [g|]; [|reflexivity].
  destruct (negb (locked g)); [reflexivity|].
  destruct (existsb _ _); reflexivity.
Qed.

Lemma validateGroup_eq (pluginInfo : PluginInfo) (groupKey : GroupKey)
      (s : Registry) :
  validateGroup pluginInfo groupKey s =
  match get_group pluginInfo groupKey with
  | None =>
      (s, Throws (TypeError "Cannot read property 'groupName' of undefined"))
  | Some r =>
      if option_string_eqb (read_groupName r s) (Some (name pluginInfo))
      then (s, Returns tt)
      else (s, Throws (Error (not_named_after groupKey pluginInfo)))
  end.
Proof.
  unfold validateGroup, boolean_instanceof_PluginConfigGroup, bind, ret,
    throw, gets, not_named_after.
  destruct (get_group pluginInfo groupKey) as [r|]; [|reflexivity].
  destruct (option_string_eqb _ _); reflexivity.
Qed.

Lemma synthesize_and_register_eq (c : ConfigId) (n : string)
      (s : Registry) :
  synthesize_and_register c n s =
  attach c (List.length (classes s))
         (record (EvRegister c (List.length (classes s)))
                 (after_synthesis n s)).
Proof.
  unfold synthesize_and_register.
  erewrite bind_returns by reflexivity.
  unfold assign_groupName, finalize.
  set (r := List.length (classes s)).
  assert (L1 : forall g h,
             lookup r (mkRegistry (classes s ++ [g])%list (master_config s)
                         (slave_config s) (instance_config s) h) = Some g).
  { intros g h. unfold lookup; simpl. apply nth_error_length. }
  assert (R1 : forall g g',
             replace_nth r g' (classes s ++ [g])%list
             = (classes s ++ [g'])%list).
  { intros g g'. apply replace_nth_length. }
  erewrite bind_returns; cycle 1.
  { unfold update_class, record, set_classes; simpl.
    rewrite L1. simpl. rewrite R1. reflexivity. }
  erewrite bind_returns; cycle 1.
  { erewrite bind_returns by reflexivity.
    unfold update_class, record, set_classes; simpl.
    rewrite L1. simpl. rewrite R1. reflexivity. }
  rewrite registerGroup_eq. unfold after_synthesis, record, synthesized; simpl.
  rewrite <- !app_assoc. reflexivity.
Qed.

Lemma register_master_eq (pluginInfo : PluginInfo) (s : Registry) :
  register_master pluginInfo s =
  match MasterConfigGroup pluginInfo with
  | Some supplied =>
      if option_string_eqb (read_groupName supplied s)
                           (Some (name pluginInfo))
      then attach MasterConfig supplied
                  (record (EvRegister MasterConfig supplied) s)
      else (s, Throws (Error (not_named_after KeyMasterConfigGroup
                                              pluginInfo)))
  | None => synthesize_and_register MasterConfig (name pluginInfo) s
  end.
Proof.
  unfold register_master.
  destruct (MasterConfigGroup pluginInfo) as [r|] eqn:E; [|reflexivity].
  rewrite bind_eq, validateGroup_eq. simpl. rewrite E.
  destruct (option_string_eqb _ _); [apply registerGroup_eq | reflexivity].
Qed.

Lemma register_instance_eq (pluginInfo : PluginInfo) (s : Registry) :
  register_instance pluginInfo s =
  if truthy_string (instanceEntrypoint pluginInfo) then
    match InstanceConfigGroup pluginInfo with
    | Some supplied =>
        if option_string_eqb (read_groupName supplied s)
                             (Some (name pluginInfo))
        then attach InstanceConfig supplied
                    (record (EvRegister InstanceConfig supplied) s)
        else (s, Throws (Error (not_named_after KeyInstanceConfigGroup
                                                pluginInfo)))
    | None => synthesize_and_register InstanceConfig (name pluginInfo) s
    end
  else (s, Returns tt).
Proof.
  unfold register_instance.
  destruct (truthy_string _); [|reflexivity].
  destruct (InstanceConfigGroup pluginInfo) as [r|] eqn:E; [|reflexivity].
  rewrite bind_eq, validateGroup_eq. simpl. rewrite E.
  destruct (option_string_eqb _ _); [apply registerGroup_eq | reflexivity].
Qed.

Lemma registerPluginConfigGroups_app (before after : list PluginInfo)
      (s : Registry) :
  registerPluginConfigGroups (before ++ after) s =
  bind (registerPluginConfigGroups before)
       (fun _ => registerPluginConfigGroups after) s.
Proof.
  revert s. induction before as [|p before IH]; intros s; simpl.
  - reflexivity.
  - rewrite !bind_eq. destruct (register_plugin p s) as [s1 [[]|e]].
    + rewrite IH. reflexivity.
    + reflexivity.
Qed.

(* ================================================================== *)
(** * What one registration does to the registry *)

Lemma read_groupName_some (r : ref) (s : Registry) (n : string) :
  read_groupName r s = Some n ->
  exists g, lookup r s = Some g /\ groupName g = Some n.
Proof.
  unfold read_groupName. destruct (lookup r s) as [g|]; [|discriminate].
  intros H. exists g. split; [reflexivity | exact H].
Qed.

Lemma register_master_registers (pluginInfo : PluginInfo)
      (s s' : Registry) (o : outcome unit) :
  register_master pluginInfo s = (s', o) ->
  registers MasterConfig (name pluginInfo) s s' o.
Proof.
  rewrite register_master_eq.
  destruct (MasterConfigGroup pluginInfo) as [r|].
  - destruct (option_string_eqb _ _) eqn:E.
    + apply option_string_eqb_eq, read_groupName_some in E.
      destruct E as (g & Hg & Hn). intros H.
      eapply reg_supplied; eauto.
    + intros H. inversion H; subst. apply reg_invalid.
  - rewrite synthesize_and_register_eq. apply reg_synthesized.
Qed.

Lemma register_instance_registers (pluginInfo : PluginInfo)
      (s s' : Registry) (o : outcome unit) :
  truthy_string (instanceEntrypoint pluginInfo) = true ->
  register_instance pluginInfo s = (s', o) ->
  registers InstanceConfig (name pluginInfo) s s' o.
Proof.
  intros T. rewrite register_instance_eq, T.
  destruct (InstanceConfigGroup pluginInfo) as [r|].
  - destruct (option_string_eqb _ _) eqn:E.
    + apply option_string_eqb_eq, read_groupName_some in E.
      destruct E as (g & Hg & Hn). intros H.
      eapply reg_supplied; eauto.
    + intros H. inversion H; subst. apply reg_invalid.
  - rewrite synthesize_and_register_eq. apply reg_synthesized.
Qed.

Lemma register_instance_skipped (pluginInfo : PluginInfo) (s : Registry) :
  truthy_string (instanceEntrypoint pluginInfo) = false ->
  register_instance pluginInfo s = (s, Returns tt).
Proof. intros T. rewrite register_instance_eq, T. reflexivity. Qed.

(** The outcome of [attach]: it throws a schema error and leaves the
    registry as it found it, or it appends one entry to the Config. *)
Lemma attach_cases (c : ConfigId) (r : ref) (s1 s' : Registry)
      (o : outcome unit) :
  attach c r s1 = (s', o) ->
  (s' = s1 /\ exists v, o = Throws (SchemaError v)) \/
  (o = Returns tt /\
   exists g, lookup r s1 = Some g /\ locked g = true /\
             configLocked (config_of c s1) = false /\
             existsb (fun e => option_string_eqb (fst e) (groupName g))
                     (groups (config_of c s1)) = false /\
             s' = set_config c
                    (mkConfig (groups (config_of c s1)
                               ++ [(groupName g, r)])%list false) s1).
Proof.
  unfold attach.
  destruct (configLocked (config_of c s1)) eqn:L.
  { intros H; inversion H; subst. left. eauto. }
  destruct (lookup r s1) as [g|] eqn:G.
  2:{ intros H; inversion H; subst. left. eauto. }
  destruct (locked g) eqn:K; simpl.
  2:{ intros H; inversion H; subst. left. eauto. }
  destruct (existsb _ _) eqn:X.
  { intros H; inversion H; subst. left. eauto. }
  intros H; inversion H; subst. right. split; [reflexivity|].
  exists g. repeat split; auto.
Qed.

Lemma evolves_refl (s : Registry) : evolves s s.
Proof.
  constructor; intros; try reflexivity;
    exists []; rewrite app_nil_r; reflexivity.
Qed.

Lemma evolves_trans (s1 s2 s3 : Registry) :
  evolves s1 s2 -> evolves s2 s3 -> evolves s1 s3.
Proof.
  intros [C1 H1 G1 L1 S1] [C2 H2 G2 L2 S2]. constructor.
  - destruct C1 as [x Hx], C2 as [y Hy]. exists (x ++ y)%list.
    rewrite Hy, Hx, app_assoc. reflexivity.
  - destruct H1 as [x Hx], H2 as [y Hy]. exists (x ++ y)%list.
    rewrite Hy, Hx, app_assoc. reflexivity.
  - intros c. destruct (G1 c) as [x Hx], (G2 c) as [y Hy].
    exists (x ++ y)%list. rewrite Hy, Hx, app_assoc. reflexivity.
  - intros c. rewrite L2. apply L1.
  - congruence.
Qed.

Lemma evolves_record (e : Event) (s : Registry) : evolves s (record e s).
Proof.
  constructor; simpl.
  - exists []. rewrite app_nil_r. reflexivity.
  - exists [e]. reflexivity.
  - intros c. exists []. rewrite app_nil_r. destruct c; reflexivity.
  - intros c. destruct c; reflexivity.
  - reflexivity.
Qed.

Lemma evolves_after_synthesis (n : string) (s : Registry) :
  evolves s (after_synthesis n s).
Proof.
  constructor; simpl.
  - eexists. reflexivity.
  - eexists. reflexivity.
  - intros c. exists []. rewrite app_nil_r. destruct c; reflexivity.
  - intros c. destruct c; reflexivity.
  - reflexivity.
Qed.

Lemma evolves_attach (c : ConfigId) (r : ref) (s1 s' : Registry)
      (o : outcome unit) :
  c <> SlaveConfig -> attach c r s1 = (s', o) -> evolves s1 s'.
Proof.
  intros NS H. apply attach_cases in H.
  destruct H as [[-> _] | [_ (g & _ & _ & L & _ & ->)]].
  - apply evolves_refl.
  - constructor.
    + exists []. rewrite app_nil_r. destruct c; reflexivity.
    + exists []. rewrite app_nil_r. destruct c; reflexivity.
    + intros c'. destruct c, c'; simpl;
        try (exists []; rewrite app_nil_r; reflexivity);
        eexists; reflexivity.
    + intros c'. destruct c, c'; simpl; try reflexivity;
        simpl in L; congruence.
    + destruct c; try reflexivity. contradiction.
Qed.

Lemma registers_evolves (c : ConfigId) (n : string) (s s' : Registry)
      (o : outcome unit) :
  c <> SlaveConfig -> registers c n s s' o -> evolves s s'.
Proof.
  intros NS H. destruct H as [msg | r g s' o _ _ A | s' o A].
  - apply evolves_refl.
  - eapply evolves_trans; [apply evolves_record|].
    eapply evolves_attach; eauto.
  - eapply evolves_trans; [apply evolves_after_synthesis|].
    eapply evolves_trans; [apply evolves_record|].
    eapply evolves_attach; eauto.
Qed.

Lemma register_instance_evolves (pluginInfo : PluginInfo)
      (s s' : Registry) (o : outcome unit) :
  register_instance pluginInfo s = (s', o) -> evolves s s'.
Proof.
  destruct (truthy_string (instanceEntrypoint pluginInfo)) eqn:T.
  - intros H. apply register_instance_registers in H; [|exact T].
    eapply registers_evolves; [|exact H]. discriminate.
  - rewrite register_instance_skipped by exact T.
    intros H; inversion H; subst. apply evolves_refl.
Qed.

Lemma register_plugin_evolves (pluginInfo : PluginInfo)
      (s s' : Registry) (o : outcome unit) :
  register_plugin pluginInfo s = (s', o) -> evolves s s'.
Proof.
  unfold register_plugin. rewrite bind_eq.
  destruct (register_master pluginInfo s) as [s1 [[]|e]] eqn:Hm.
  - intros Hi. eapply evolves_trans.
    + eapply registers_evolves;
        [|apply register_master_registers; exact Hm]. discriminate.
    + eapply register_instance_evolves; exact Hi.
  - intros H; inversion H; subst.
    eapply registers_evolves;
      [|apply register_master_registers; exact Hm]. discriminate.
Qed.

Lemma registerPluginConfigGroups_evolves (pluginInfos : list PluginInfo) :
  forall (s s' : Registry) (o : outcome unit),
    registerPluginConfigGroups pluginInfos s = (s', o) -> evolves s s'.
Proof.
  induction pluginInfos as [|p l IH]; intros s s' o; simpl.
  - intros H; inversion H; subst. apply evolves_refl.
  - rewrite bind_eq.
    destruct (register_plugin p s) as [s1 [[]|e]] eqn:Hp.
    + intros H. eapply evolves_trans.
      * eapply register_plugin_evolves; exact Hp.
      * eapply IH; exact H.
    + intros H; inversion H; subst.
      eapply register_plugin_evolves; exact Hp.
Qed.

Lemma evolves_lookup (s s' : Registry) (r : ref) (g : GroupClass) :
  evolves s s' -> lookup r s = Some g -> lookup r s' = Some g.
Proof.
  intros [[extra E] _ _ _ _] H. unfold lookup in *. rewrite E.
  rewrite nth_error_app1; [exact H|].
  apply nth_error_Some. congruence.
Qed.

Lemma evolves_In_groups (s s' : Registry) (c : ConfigId)
      (e : option string * ref) :
  evolves s s' ->
  In e (groups (config_of c s)) -> In e (groups (config_of c s')).
Proof.
  intros [_ _ G _ _] H. destruct (G c) as [added E]. rewrite E.
  apply in_or_app. left. exact H.
Qed.

(* ================================================================== *)
(** * Validation of supplied groups *)

(** [validateGroup] has two outcomes only: it returns, or it throws the
    error of the name check; it never changes the registry and never
    consults what the supplied class extends. *)
Lemma validateGroup_outcomes (pluginInfo : PluginInfo) (groupKey : GroupKey)
      (supplied : ref) (s : Registry) :
  get_group pluginInfo groupKey = Some supplied ->
  validateGroup pluginInfo groupKey s =
  (s, if option_string_eqb (read_groupName supplied s)
                           (Some (name pluginInfo))
      then Returns tt
      else Throws (Error (not_named_after groupKey pluginInfo))).
Proof.
  intros H. rewrite validateGroup_eq, H.
  destruct (option_string_eqb _ _); reflexivity.
Qed.

(** C1 (the code departs from the claim).  A plugin [p] supplies as
    [MasterConfigGroup] a finalized class named [p] that extends
    [ConfigGroup], not [PluginConfigGroup].  The capability check of
    [validateGroup] tests a boolean with [instanceof] and so never fires:
    validation returns, registration completes without an error, and the
    class is registered in MasterConfig. *)
Theorem C1_plain_group_is_registered :
  snd (plugin_defines_plain_group loaded_registry) = Returns 4 /\
  option_map extends (lookup 4 registry_with_plain_group)
  = Some ConfigGroup /\
  validateGroup (mkPluginInfo "p" (Some 4) None None) KeyMasterConfigGroup
                registry_with_plain_group
  = (registry_with_plain_group, Returns tt) /\
  snd (registerPluginConfigGroups [mkPluginInfo "p" (Some 4) None None]
         registry_with_plain_group) = Returns tt /\
  groups (master_config
            (fst (registerPluginConfigGroups
                    [mkPluginInfo "p" (Some 4) None None]
                    registry_with_plain_group)))
  = [(Some "master", 0); (Some "p", 4)].
Proof. repeat split; vm_compute; reflexivity. Qed.

Lemma misnamed_master_group_throws (pluginInfo : PluginInfo)
      (supplied : ref) (g : GroupClass) (s : Registry) :
  MasterConfigGroup pluginInfo = Some supplied ->
  lookup supplied s = Some g ->
  groupName g <> Some (name pluginInfo) ->
  register_plugin pluginInfo s
  = (s, Throws (Error (not_named_after KeyMasterConfigGroup pluginInfo))).
Proof.
  intros Hm Hg Hn. unfold register_plugin. apply bind_throws.
  rewrite register_master_eq, Hm.
  replace (option_string_eqb (read_groupName supplied s)
                             (Some (name pluginInfo))) with false;
    [reflexivity|].
  symmetry. apply option_string_eqb_neq. unfold read_groupName.
  rewrite Hg. exact Hn.
Qed.

Lemma misnamed_master_group_never_returns (pluginInfo : PluginInfo)
      (supplied : ref) (g : GroupClass) :
  MasterConfigGroup pluginInfo = Some supplied ->
  groupName g <> Some (name pluginInfo) ->
  forall (pluginInfos : list PluginInfo) (s : Registry),
    In pluginInfo pluginInfos ->
    lookup supplied s = Some g ->
    exists s' e, registerPluginConfigGroups pluginInfos s = (s', Throws e).
Proof.
  intros Hm Hn. induction pluginInfos as [|p l IH]; intros s Hin Hg;
    [contradiction|].
  simpl. rewrite bind_eq.
  destruct (register_plugin p s) as [s1 [[]|e]] eqn:Hp.
  - destruct Hin as [-> | Hin].
    + rewrite (@misnamed_master_group_throws _ _ _ _ Hm Hg Hn) in Hp.
      discriminate.
    + apply IH; [exact Hin|].
      eapply evolves_lookup; [|exact Hg].
      eapply register_plugin_evolves; exact Hp.
  - eauto.
Qed.

(** C2.  Let [pluginInfo] supply a MasterConfigGroup whose [groupName] is
    not the plugin's name.  When the descriptors before it have been
    processed, [registerPluginConfigGroups] throws the error of the name
    check of [validateGroup], and the registry it leaves is the one the
    earlier descriptors produced: its history holds no [registerGroup]
    call for this descriptor and its Configs hold no group from it.  And
    no call on a list that contains [pluginInfo] returns. *)
Theorem C2_misnamed_master_group_throws_before_registerGroup
        (pluginInfo : PluginInfo) (supplied : ref) (g : GroupClass) :
  MasterConfigGroup pluginInfo = Some supplied ->
  groupName g <> Some (name pluginInfo) ->
  (forall (before after : list PluginInfo) (s s1 : Registry),
      registerPluginConfigGroups before s = (s1, Returns tt) ->
      lookup supplied s = Some g ->
      validateGroup pluginInfo KeyMasterConfigGroup s1
      = (s1, Throws (Error ("Expected MasterConfigGroup for "
                            ++ name pluginInfo
                            ++ " to be named after the plugin"))) /\
      registerPluginConfigGroups (before ++ pluginInfo :: after) s
      = (s1, Throws (Error ("Expected MasterConfigGroup for "
                            ++ name pluginInfo
                            ++ " to be named after the plugin")))) /\
  (forall (pluginInfos : list PluginInfo) (s : Registry),
      In pluginInfo pluginInfos ->
      lookup supplied s = Some g ->
      exists s' e,
        registerPluginConfigGroups pluginInfos s = (s', Throws e)).
Proof.
  intros Hm Hn. split.
  - intros before after s s1 Hb Hg.
    assert (Hg1 : lookup supplied s1 = Some g).
    { eapply evolves_lookup; [|exact Hg].
      eapply registerPluginConfigGroups_evolves; exact Hb. }
    split.
    + rewrite (validateGroup_outcomes pluginInfo KeyMasterConfigGroup s1
                                      Hm).
      replace (option_string_eqb (read_groupName supplied s1)
                                 (Some (name pluginInfo))) with false;
        [reflexivity|].
      symmetry. apply option_string_eqb_neq. unfold read_groupName.
      rewrite Hg1. exact Hn.
    + rewrite registerPluginConfigGroups_app.
      rewrite (bind_returns _ _ _ Hb). simpl.
      apply bind_throws.
      exact (@misnamed_master_group_throws _ _ _ _ Hm Hg1 Hn).
  - apply misnamed_master_group_never_returns; assumption.
Qed.

Lemma C2_witness :
  registerPluginConfigGroups
    ([mkPluginInfo "a" None None None]
       ++ mkPluginInfo "b" (Some 0) None None
       :: [mkPluginInfo "c" None None None]) loaded_registry
  = (fst (registerPluginConfigGroups [mkPluginInfo "a" None None None]
            loaded_registry),
     Throws (Error "Expected MasterConfigGroup for b to be named after the plugin")).
Proof.
  refine (proj2 (proj1
            (@C2_misnamed_master_group_throws_before_registerGroup
               (mkPluginInfo "b" (Some 0) None None) 0
               (mkGroup ConfigGroup (Some "master")
                        (definitions (nth 0 (classes loaded_registry)
                                          (synthesized "")))
                        true)
               eq_refl _)
            [mkPluginInfo "a" None None None]
            [mkPluginInfo "c" None None None]
            loaded_registry _ _ _)).
  - simpl. discriminate.
  - vm_compute. reflexivity.
  - vm_compute. reflexivity.
Defined.

(* ================================================================== *)
(** * Successful registrations *)

Lemma has_group_app (n : string) (l1 l2 : list (option string * ref))
      (b1 b2 : bool) :
  has_group n (mkConfig (l1 ++ l2) b1)
  = has_group n (mkConfig l1 b2) || has_group n (mkConfig l2 b2).
Proof. unfold has_group; simpl. apply existsb_app. Qed.

Lemma count_groups_app (n : string) (l1 l2 : list (option string * ref))
      (b1 b2 : bool) :
  count_groups n (mkConfig (l1 ++ l2) b1)
  = count_groups n (mkConfig l1 b2) + count_groups n (mkConfig l2 b2).
Proof.
  unfold count_groups; simpl. rewrite filter_app, length_app. reflexivity.
Qed.

Lemma has_group_false_count (n : string) (cfg : Config) :
  has_group n cfg = false -> count_groups n cfg = 0.
Proof.
  unfold has_group, count_groups.
  induction (groups cfg) as [|e l IH]; simpl; [reflexivity|].
  destruct (option_string_eqb (fst e) (Some n)); simpl;
    [discriminate | exact IH].
Qed.

Lemma attach_success (c : ConfigId) (r : ref) (s1 s' : Registry) :
  attach c r s1 = (s', Returns tt) ->
  exists g, lookup r s1 = Some g /\ locked g = true /\
            existsb (fun e => option_string_eqb (fst e) (groupName g))
                    (groups (config_of c s1)) = false /\
            s' = set_config c
                   (mkConfig (groups (config_of c s1)
                              ++ [(groupName g, r)])%list false) s1.
Proof.
  intros H. apply attach_cases in H.
  destruct H as [[_ [v Hv]] | [_ (g & G & K & _ & X & E)]];
    [discriminate|].
  exists g. auto.
Qed.

(** A half of the loop body that returns has appended exactly one entry,
    under the plugin's name, to its own Config and has left the other
    Configs alone; the name was free before. *)
Lemma registers_success (c : ConfigId) (n : string) (s s' : Registry) :
  registers c n s s' (Returns tt) ->
  has_group n (config_of c s) = false /\
  exists r,
    groups (config_of c s')
    = (groups (config_of c s) ++ [(Some n, r)])%list /\
    (forall c', c' <> c -> config_of c' s' = config_of c' s) /\
    exists g, lookup r s' = Some g /\ groupName g = Some n /\
              locked g = true.
Proof.
  intros H. inversion H as [msg | r g s1 o G N A | s1 o A]; subst.
  - apply attach_success in A.
    destruct A as (g' & G' & K & X & ->).
    assert (g' = g) by (unfold lookup in *; simpl in *; congruence).
    subst g'. rewrite N in *. split.
    + destruct c; exact X.
    + exists r. split; [destruct c; reflexivity|]. split.
      * intros c' D. destruct c, c'; try reflexivity; contradiction.
      * exists g. repeat split; auto. destruct c; exact G'.
  - apply attach_success in A.
    destruct A as (g' & G' & K & X & ->).
    assert (g' = synthesized n).
    { unfold lookup in G'; simpl in G'.
      rewrite nth_error_length in G'. congruence. }
    subst g'. simpl in X. split.
    + destruct c; exact X.
    + exists (List.length (classes s)).
      split; [destruct c; reflexivity|]. split.
      * intros c' D. destruct c, c'; try reflexivity; contradiction.
      * exists (synthesized n). repeat split; auto.
        destruct c; exact G'.
Qed.

(** The [else] branch for the Master config, when it returns. *)
Lemma register_master_synthesized (pluginInfo : PluginInfo)
      (s s' : Registry) :
  MasterConfigGroup pluginInfo = None ->
  register_master pluginInfo s = (s', Returns tt) ->
  lookup (List.length (classes s)) s'
  = Some (synthesized (name pluginInfo)) /\
  In (Some (name pluginInfo), List.length (classes s))
     (groups (master_config s')).
Proof.
  intros N. rewrite register_master_eq, N, synthesize_and_register_eq.
  intros A. apply attach_success in A.
  destruct A as (g & G & _ & _ & ->).
  unfold lookup in G; simpl in G. rewrite nth_error_length in G.
  inversion G; subst g. split.
  - unfold lookup; simpl. apply nth_error_length.
  - simpl. apply in_or_app. right. left. reflexivity.
Qed.

(** One iteration that returns: its effect on the two Configs. *)
Lemma register_plugin_success (pluginInfo : PluginInfo) (s s' : Registry) :
  register_plugin pluginInfo s = (s', Returns tt) ->
  has_group (name pluginInfo) (master_config s) = false /\
  (exists r, groups (master_config s')
             = (groups (master_config s)
                ++ [(Some (name pluginInfo), r)])%list) /\
  (if truthy_string (instanceEntrypoint pluginInfo)
   then exists r, groups (instance_config s')
                  = (groups (instance_config s)
                     ++ [(Some (name pluginInfo), r)])%list
   else instance_config s' = instance_config s).
Proof.
  unfold register_plugin. rewrite bind_eq.
  destruct (register_master pluginInfo s) as [s1 [[]|e]] eqn:Hm;
    [|discriminate].
  apply register_master_registers, registers_success in Hm.
  destruct Hm as (F & r & Gm & Other & _). simpl in F, Gm.
  pose proof (Other InstanceConfig ltac:(discriminate)) as Oi.
  simpl in Oi.
  destruct (truthy_string (instanceEntrypoint pluginInfo)) eqn:T.
  - intros Hi. apply register_instance_registers in Hi; [|exact T].
    apply registers_success in Hi.
    destruct Hi as (_ & r' & Gi & Other' & _). simpl in Gi.
    pose proof (Other' MasterConfig ltac:(discriminate)) as Om.
    simpl in Om.
    split; [exact F|]. split.
    + exists r. rewrite Om. exact Gm.
    + exists r'. rewrite Gi, Oi. reflexivity.
  - rewrite register_instance_skipped by exact T.
    intros H; inversion H; subst s'.
    split; [exact F|]. split; [exists r; exact Gm | exact Oi].
Qed.

Lemma count_groups_stable (pluginInfos : list PluginInfo) :
  forall (s s' : Registry) (n : string),
    registerPluginConfigGroups pluginInfos s = (s', Returns tt) ->
    has_group n (master_config s) = true ->
    count_groups n (master_config s')
    = count_groups n (master_config s) /\
    has_group n (master_config s') = true.
Proof.
  induction pluginInfos as [|p l IH]; intros s s' n; simpl.
  - intros H; inversion H; subst. auto.
  - rewrite bind_eq.
    destruct (register_plugin p s) as [s1 [[]|e]] eqn:Hp; [|discriminate].
    intros Hl Hn.
    apply register_plugin_success in Hp. destruct Hp as (F & [r G] & _).
    assert (D : option_string_eqb (Some (name p)) (Some n) = false).
    { apply option_string_eqb_neq. intros E. inversion E; subst.
      congruence. }
    assert (C1 : count_groups n (master_config s1)
                 = count_groups n (master_config s)).
    { destruct (master_config s1) as [g1 b1], (master_config s) as [g0 b0].
      simpl in G. subst g1.
      rewrite (count_groups_app n g0 _ b1 b0).
      unfold count_groups at 2. cbn [groups filter fst]. rewrite D.
      simpl. lia. }
    assert (H1 : has_group n (master_config s1) = true).
    { destruct (master_config s1) as [g1 b1], (master_config s) as [g0 b0].
      simpl in G. subst g1.
      rewrite (has_group_app n g0 _ b1 b0), Hn. reflexivity. }
    destruct (IH s1 s' n Hl H1) as [C2 H2]. split; [lia | exact H2].
Qed.

Lemma length_classes_evolves (s s' : Registry) :
  evolves s s' -> List.length (classes s) <= List.length (classes s').
Proof.
  intros [[extra E] _ _ _ _]. rewrite E, length_app. lia.
Qed.

(** What the [else] branch for the Master config does, whatever its
    outcome: the class is created, named, finalized and handed to
    [registerGroup], which attaches it unless MasterConfig is locked or
    already has a group of that name. *)
Lemma register_master_without_group (pluginInfo : PluginInfo)
      (s s' : Registry) (o : outcome unit) :
  MasterConfigGroup pluginInfo = None ->
  register_master pluginInfo s = (s', o) ->
  lookup (List.length (classes s)) s'
  = Some (mkGroup PluginConfigGroup (Some (name pluginInfo)) [] true) /\
  history s'
  = (history s ++ [EvNew (List.length (classes s));
                   EvFinalize (List.length (classes s));
                   EvRegister MasterConfig (List.length (classes s))])%list /\
  ((o = Returns tt /\
    configLocked (master_config s) = false /\
    has_group (name pluginInfo) (master_config s) = false /\
    groups (master_config s')
    = (groups (master_config s)
       ++ [(Some (name pluginInfo), List.length (classes s))])%list) \/
   ((exists v, o = Throws (SchemaError v)) /\
    master_config s' = master_config s /\
    (configLocked (master_config s) = true \/
     has_group (name pluginInfo) (master_config s) = true))).
Proof.
  intros N. rewrite register_master_eq, N, synthesize_and_register_eq.
  unfold attach, lookup.
  cbn [config_of record after_synthesis classes master_config history].
  rewrite nth_error_length. cbn [locked synthesized negb groupName].
  fold (has_group (name pluginInfo) (master_config s)).
  destruct (configLocked (master_config s)) eqn:L;
    [|destruct (has_group (name pluginInfo) (master_config s)) eqn:D];
    intros H; inversion H; subst; clear H;
    cbn [set_config record after_synthesis classes master_config history
         groups];
    rewrite nth_error_length, <- app_assoc;
    (split; [reflexivity|]); (split; [reflexivity|]).
  - right. split; [eauto|]. split; [reflexivity|]. left. reflexivity.
  - right. split; [eauto|]. split; [reflexivity|]. right. reflexivity.
  - left. repeat split; reflexivity.
Qed.

(** When the call returns, every plugin of the list has exactly one
    group under its name in MasterConfig; for a plugin without
    MasterConfigGroup it is a class created during the call. *)
Lemma one_master_group_on_return (pluginInfos : list PluginInfo) :
  forall s s',
    registerPluginConfigGroups pluginInfos s = (s', Returns tt) ->
    forall pluginInfo, In pluginInfo pluginInfos ->
      count_groups (name pluginInfo) (master_config s') = 1 /\
      (MasterConfigGroup pluginInfo = None ->
       exists r,
         List.length (classes s) <= r /\
         In (Some (name pluginInfo), r) (groups (master_config s')) /\
         lookup r s'
         = Some (mkGroup PluginConfigGroup (Some (name pluginInfo)) []
                         true)).
Proof.
  induction pluginInfos as [|p l IH]; intros s s' H q Hq;
    [contradiction|].
  simpl in H. rewrite bind_eq in H.
  destruct (register_plugin p s) as [s1 [[]|e]] eqn:Hp; [|discriminate].
  pose proof (register_plugin_evolves _ _ Hp) as E1.
  pose proof (registerPluginConfigGroups_evolves _ _ H) as E2.
  destruct Hq as [<- | Hq].
  - split.
    + pose proof (register_plugin_success _ _ Hp) as (F & [r G] & _).
      assert (C1 : count_groups (name p) (master_config s1) = 1).
      { destruct (master_config s1) as [g1 b1],
                 (master_config s) as [g0 b0].
        simpl in G. subst g1.
        rewrite (count_groups_app (name p) g0 _ b1 b0).
        rewrite (has_group_false_count _ _ F).
        unfold count_groups. cbn [groups filter fst option_string_eqb].
        rewrite String.eqb_refl. reflexivity. }
      assert (H1 : has_group (name p) (master_config s1) = true).
      { destruct (master_config s1) as [g1 b1],
                 (master_config s) as [g0 b0].
        simpl in G. subst g1.
        rewrite (has_group_app (name p) g0 _ b1 b0).
        unfold has_group at 2.
        cbn [groups existsb fst option_string_eqb].
        rewrite String.eqb_refl. apply orb_true_iff. right. reflexivity. }
      destruct (count_groups_stable _ _ _ H H1) as [C2 _]. lia.
    + intros N. unfold register_plugin in Hp. rewrite bind_eq in Hp.
      destruct (register_master p s) as [sm [[]|e]] eqn:Hm;
        [|discriminate].
      pose proof (register_instance_evolves _ _ Hp) as Ei.
      destruct (register_master_synthesized _ _ N Hm) as [L I].
      exists (List.length (classes s)). split; [lia|]. split.
      * apply (evolves_In_groups MasterConfig _ E2).
        apply (evolves_In_groups MasterConfig _ Ei). exact I.
      * apply (evolves_lookup _ E2). apply (evolves_lookup _ Ei). exact L.
  - destruct (IH s1 s' H q Hq) as [C S]. split; [exact C|].
    intros N. destruct (S N) as (r & B & I & L).
    exists r. split; [|split; assumption].
    pose proof (length_classes_evolves E1). lia.
Qed.

(* ================================================================== *)
(** * The Instance config *)

Lemma register_master_instance_config (pluginInfo : PluginInfo)
      (s s' : Registry) (o : outcome unit) :
  register_master pluginInfo s = (s', o) ->
  instance_config s' = instance_config s /\
  exists new, history s' = (history s ++ new)%list /\
              forallb (fun e => negb (is_instance_register e)) new = true.
Proof.
  intros H. apply register_master_registers in H.
  destruct H as [msg | r g s' o _ _ A | s' o A].
  - split; [reflexivity|]. exists []. rewrite app_nil_r. auto.
  - apply attach_cases in A.
    destruct A as [[-> _] | [_ (g' & _ & _ & _ & _ & ->)]];
      (split; [reflexivity|]); exists [EvRegister MasterConfig r]; auto.
  - apply attach_cases in A.
    destruct A as [[-> _] | [_ (g' & _ & _ & _ & _ & ->)]];
      (split; [reflexivity|]);
      exists [EvNew (List.length (classes s));
              EvFinalize (List.length (classes s));
              EvRegister MasterConfig (List.length (classes s))];
      simpl; rewrite <- app_assoc; auto.
Qed.

Lemma register_plugin_without_entrypoint (p : PluginInfo)
      (s s' : Registry) (o : outcome unit) :
  register_plugin p s = (s', o) ->
  truthy_string (instanceEntrypoint p) = false ->
  instance_config s' = instance_config s /\
  exists new, history s' = (history s ++ new)%list /\
              forallb (fun e => negb (is_instance_register e)) new = true.
Proof.
  intros H T. unfold register_plugin in H. rewrite bind_eq in H.
  destruct (register_master p s) as [s1 [[]|e]] eqn:Hm.
  - rewrite register_instance_skipped in H by exact T.
    inversion H; subst. eapply register_master_instance_config; eauto.
  - inversion H; subst. eapply register_master_instance_config; eauto.
Qed.

Lemma instance_names_on_success (pluginInfos : list PluginInfo) :
  forall s s',
    registerPluginConfigGroups pluginInfos s = (s', Returns tt) ->
    group_names (instance_config s')
    = (group_names (instance_config s)
       ++ map (fun p => Some (name p))
              (filter (fun p => truthy_string (instanceEntrypoint p))
                      pluginInfos))%list.
Proof.
  induction pluginInfos as [|p l IH]; intros s s' H; simpl in *.
  - inversion H; subst. rewrite app_nil_r. reflexivity.
  - rewrite bind_eq in H.
    destruct (register_plugin p s) as [s1 [[]|e]] eqn:Hp;
      [|discriminate].
    rewrite (IH _ _ H).
    pose proof (register_plugin_success _ _ Hp) as (_ & _ & I).
    unfold group_names in *.
    destruct (truthy_string (instanceEntrypoint p)).
    + destruct I as [r G]. rewrite G, map_app. simpl.
      rewrite <- app_assoc. reflexivity.
    + rewrite I. reflexivity.
Qed.

(* ================================================================== *)
(** * A failing descriptor in the middle of the list *)

Lemma attach_never_Error (c : ConfigId) (r : ref) (s1 s' : Registry)
      (message : string) :
  attach c r s1 = (s', Throws (Error message)) -> False.
Proof.
  intros H. apply attach_cases in H.
  destruct H as [[_ [v Hv]] | [Hr _]]; discriminate.
Qed.

(** C8, counterexample to the wording.  The second descriptor supplies no
    MasterConfigGroup and a misnamed InstanceConfigGroup (the class of the
    base group "instance"): its synthesized Master group is registered
    before the validation of its Instance group throws. *)
Lemma C8_counterexample : ~ nothing_registered_from_failing_descriptor.
Proof.
  intros H.
  pose (s1 := fst (registerPluginConfigGroups
                     [mkPluginInfo "a" None None None] loaded_registry)).
  pose (s2 := fst (register_plugin
                     (mkPluginInfo "p" None (Some 2) (Some "instance"))
                     s1)).
  assert (Hb : registerPluginConfigGroups
                 [mkPluginInfo "a" None None None] loaded_registry
               = (s1, Returns tt)) by (vm_compute; reflexivity).
  assert (Hp : register_plugin
                 (mkPluginInfo "p" None (Some 2) (Some "instance")) s1
               = (s2, Throws (Error "Expected InstanceConfigGroup for p to be named after the plugin")))
    by (vm_compute; reflexivity).
  assert (Hf : registerPluginConfigGroups
                 ([mkPluginInfo "a" None None None]
                    ++ mkPluginInfo "p" None (Some 2) (Some "instance")
                    :: [mkPluginInfo "z" None None None]) loaded_registry
               = (s2, Throws (Error "Expected InstanceConfigGroup for p to be named after the plugin")))
    by (vm_compute; reflexivity).
  destruct (H _ _ _ _ _ _ _ Hb Hp _ _ Hf) as [Hm _].
  assert (Hl : List.length (groups (master_config s2))
               = List.length (groups (master_config s1)))
    by (rewrite Hm; reflexivity).
  vm_compute in Hl. discriminate Hl.
Qed.

(** C8, amended.  When the descriptors before [pluginInfo] have been
    processed and validation throws for [pluginInfo], the whole call
    throws that error in the registry reached at the throw, so no later
    descriptor is processed; every group registered before is still
    registered; InstanceConfig has no group from [pluginInfo]; and
    MasterConfig has no group from [pluginInfo] when the error is that of
    its MasterConfigGroup, but has its Master group when the error is that
    of its InstanceConfigGroup. *)
Theorem C8_registration_stops_at_failing_descriptor
        (before after : list PluginInfo) (pluginInfo : PluginInfo)
        (s s1 s2 : Registry) (message : string) :
  registerPluginConfigGroups before s = (s1, Returns tt) ->
  register_plugin pluginInfo s1 = (s2, Throws (Error message)) ->
  registerPluginConfigGroups (before ++ pluginInfo :: after) s
  = (s2, Throws (Error message)) /\
  (forall c e, In e (groups (config_of c s1)) ->
               In e (groups (config_of c s2))) /\
  instance_config s2 = instance_config s1 /\
  ((message = not_named_after KeyMasterConfigGroup pluginInfo /\
    s2 = s1) \/
   (message = not_named_after KeyInstanceConfigGroup pluginInfo /\
    exists r, groups (master_config s2)
              = (groups (master_config s1)
                 ++ [(Some (name pluginInfo), r)])%list)).
Proof.
  intros Hb Hp. split; [|split].
  - rewrite registerPluginConfigGroups_app, (bind_returns _ _ _ Hb).
    simpl. apply bind_throws. exact Hp.
  - intros c e. apply evolves_In_groups.
    eapply register_plugin_evolves; exact Hp.
  - unfold register_plugin in Hp. rewrite bind_eq in Hp.
    destruct (register_master pluginInfo s1) as [sm [[]|e]] eqn:Hm.
    + pose proof (register_master_registers _ _ Hm) as R.
      apply registers_success in R.
      destruct R as (_ & r & Gm & Other & _). simpl in Gm.
      pose proof (Other InstanceConfig ltac:(discriminate)) as Oi.
      simpl in Oi.
      rewrite register_instance_eq in Hp.
      destruct (truthy_string (instanceEntrypoint pluginInfo));
        [|discriminate].
      destruct (InstanceConfigGroup pluginInfo) as [supplied|].
      * destruct (option_string_eqb _ _).
        -- apply attach_never_Error in Hp. contradiction.
        -- inversion Hp; subst. split; [exact Oi|]. right.
           split; [reflexivity|]. exists r. exact Gm.
      * rewrite synthesize_and_register_eq in Hp.
        apply attach_never_Error in Hp. contradiction.
    + inversion Hp; subst. clear Hp.
      rewrite register_master_eq in Hm.
      destruct (MasterConfigGroup pluginInfo) as [supplied|].
      * destruct (option_string_eqb _ _).
        -- apply attach_never_Error in Hm. contradiction.
        -- inversion Hm; subst. split; [reflexivity|]. left. auto.
      * rewrite synthesize_and_register_eq in Hm.
        apply attach_never_Error in Hm. contradiction.
Qed.

Lemma C8_witness :
  registerPluginConfigGroups
    ([mkPluginInfo "a" None None None]
       ++ mkPluginInfo "p" None (Some 2) (Some "instance")
       :: [mkPluginInfo "z" None None None]) loaded_registry
  = (fst (registerPluginConfigGroups
            [mkPluginInfo "a" None None None;
             mkPluginInfo "p" None (Some 2) (Some "instance")]
            loaded_registry),
     Throws (Error "Expected InstanceConfigGroup for p to be named after the plugin")).
Proof.
  exact (proj1 (@C8_registration_stops_at_failing_descriptor
                  [mkPluginInfo "a" None None None]
                  [mkPluginInfo "z" None None None]
                  (mkPluginInfo "p" None (Some 2) (Some "instance"))
                  loaded_registry
                  (fst (registerPluginConfigGroups
                          [mkPluginInfo "a" None None None]
                          loaded_registry))
                  (fst (registerPluginConfigGroups
                          [mkPluginInfo "a" None None None;
                           mkPluginInfo "p" None (Some 2) (Some "instance")]
                          loaded_registry))
                  "Expected InstanceConfigGroup for p to be named after the plugin"
                  ltac:(vm_compute; reflexivity)
                  ltac:(vm_compute; reflexivity))).
Defined.

(* ================================================================== *)
(** * Finalize before register *)

Lemma finalized_first_sound (events : list Event) :
  forall done,
    finalized_first done events = true ->
    forall h1 h2 c r,
      events = (h1 ++ EvRegister c r :: h2)%list ->
      In r done \/ In (EvFinalize r) h1.
Proof.
  induction events as [|e rest IH]; intros done F h1 h2 c r E.
  - destruct h1; discriminate.
  - destruct h1 as [|x h1]; simpl in E; inversion E; subst.
    + simpl in F. apply andb_true_iff in F. destruct F as [F _].
      apply existsb_exists in F. destruct F as (y & Hy & Ey).
      apply Nat.eqb_eq in Ey. subst. left. exact Hy.
    + destruct x as [r0 | r0 | c0 r0]; simpl in F.
      * destruct (IH _ F _ _ _ _ eq_refl) as [D | D];
          [left; exact D | right; right; exact D].
      * destruct (IH _ F _ _ _ _ eq_refl) as [[D | D] | D].
        -- subst. right. left. reflexivity.
        -- left. exact D.
        -- right. right. exact D.
      * apply andb_true_iff in F. destruct F as [_ F].
        destruct (IH _ F _ _ _ _ eq_refl) as [D | D];
          [left; exact D | right; right; exact D].
Qed.

Lemma split_at_last {A : Type} (ev h1 h2 : list A) (e x : A) :
  (ev ++ [e])%list = (h1 ++ x :: h2)%list ->
  (h2 = [] /\ ev = h1 /\ e = x) \/
  (exists h2', h2 = (h2' ++ [e])%list /\ ev = (h1 ++ x :: h2')%list).
Proof.
  intros E. destruct h2 as [|y h2] using rev_ind.
  - left. apply app_inj_tail in E. destruct E. auto.
  - right. exists h2.
    change (h1 ++ x :: h2 ++ [y])%list
      with (h1 ++ (x :: h2) ++ [y])%list in E.
    rewrite app_assoc in E. apply app_inj_tail in E.
    destruct E as [E1 E2]. subst. auto.
Qed.

Lemma precedes_snoc_register (own : ref -> Prop) (events : list Event)
      (c : ConfigId) (r : ref) :
  finalize_precedes_register own events ->
  (own r -> In (EvFinalize r) events) ->
  finalize_precedes_register own (events ++ [EvRegister c r]).
Proof.
  intros P F h1 h2 c' r' E O.
  apply split_at_last in E.
  destruct E as [(_ & -> & X) | (h2' & _ & ->)].
  - inversion X; subst. apply F. exact O.
  - eapply P; [reflexivity | exact O].
Qed.

Lemma precedes_snoc_other (own : ref -> Prop) (events : list Event)
      (e : Event) :
  finalize_precedes_register own events ->
  is_register e = false ->
  finalize_precedes_register own (events ++ [e]).
Proof.
  intros P N h1 h2 c' r' E O.
  apply split_at_last in E.
  destruct E as [(_ & -> & X) | (h2' & _ & ->)].
  - subst e. discriminate.
  - eapply P; [reflexivity | exact O].
Qed.

Lemma well_finalized_refl (s : Registry) : well_finalized s s.
Proof.
  exists []. rewrite app_nil_r. repeat split; auto.
  - intros h1 h2 c r E. destruct h1; discriminate.
  - intros r A B. lia.
  - intros r [].
Qed.

Lemma attach_keeps (c : ConfigId) (r : ref) (s1 s' : Registry)
      (o : outcome unit) :
  attach c r s1 = (s', o) ->
  history s' = history s1 /\ classes s' = classes s1.
Proof.
  intros H. apply attach_cases in H.
  destruct H as [[-> _] | [_ (g & _ & _ & _ & _ & ->)]];
    [auto | destruct c; auto].
Qed.

Lemma registers_well_finalized (c : ConfigId) (n : string)
      (s0 s s' : Registry) (o : outcome unit) :
  registers c n s s' o -> well_finalized s0 s -> well_finalized s0 s'.
Proof.
  intros R (new & Hh & Hl & P & F & N).
  destruct R as [msg | r g s' o G _ A | s' o A].
  - exists new. auto.
  - apply attach_keeps in A. destruct A as [Ah Ac]. simpl in Ah, Ac.
    assert (Hr : r < List.length (classes s)).
    { apply nth_error_Some. unfold lookup in G. congruence. }
    exists (new ++ [EvRegister c r])%list.
    rewrite Ah, Ac, Hh, app_assoc. repeat split; auto.
    + apply precedes_snoc_register; auto.
    + intros r' A B. apply in_or_app. left. auto.
    + intros r' I. apply in_app_or in I.
      destruct I as [I | [I | []]]; [auto | discriminate].
  - apply attach_keeps in A. destruct A as [Ah Ac]. simpl in Ah, Ac.
    set (k := List.length (classes s)) in *.
    exists (((new ++ [EvNew k]) ++ [EvFinalize k])
              ++ [EvRegister c k])%list.
    rewrite Ah, Ac, Hh, length_app. simpl.
    repeat split.
    + rewrite <- !app_assoc. reflexivity.
    + lia.
    + apply precedes_snoc_register.
      * apply precedes_snoc_other; [|reflexivity].
        apply precedes_snoc_other; [exact P | reflexivity].
      * intros _. apply in_or_app. right. left. reflexivity.
    + intros r' A B.
      destruct (Nat.eq_dec r' k) as [-> | D].
      * apply in_or_app. left. apply in_or_app. right. left. reflexivity.
      * apply in_or_app. left. apply in_or_app. left.
        apply in_or_app. left. apply F; [exact A | fold k; lia].
    + intros r' I.
      apply in_app_or in I. destruct I as [I | [I | []]];
        [|discriminate].
      apply in_app_or in I. destruct I as [I | [I | []]];
        [|discriminate].
      apply in_app_or in I. destruct I as [I | [I | []]]; [auto|].
      inversion I; subst. exact Hl.
Qed.

Lemma register_plugin_well_finalized (pluginInfo : PluginInfo)
      (s0 s s' : Registry) (o : outcome unit) :
  register_plugin pluginInfo s = (s', o) ->
  well_finalized s0 s -> well_finalized s0 s'.
Proof.
  unfold register_plugin. rewrite bind_eq.
  destruct (register_master pluginInfo s) as [s1 [[]|e]] eqn:Hm.
  - intros Hi W.
    pose proof (registers_well_finalized
                  (register_master_registers _ _ Hm) W) as W1.
    destruct (truthy_string (instanceEntrypoint pluginInfo)) eqn:T.
    + eapply registers_well_finalized; [|exact W1].
      apply register_instance_registers; eauto.
    + rewrite register_instance_skipped in Hi by exact T.
      inversion Hi; subst. exact W1.
  - intros H W. inversion H; subst.
    eapply registers_well_finalized; [|exact W].
    apply register_master_registers; eauto.
Qed.

Lemma registerPluginConfigGroups_well_finalized
      (pluginInfos : list PluginInfo) :
  forall (s0 s s' : Registry) (o : outcome unit),
    registerPluginConfigGroups pluginInfos s = (s', o) ->
    well_finalized s0 s -> well_finalized s0 s'.
Proof.
  induction pluginInfos as [|p l IH]; intros s0 s s' o; simpl.
  - intros H; inversion H; subst. auto.
  - rewrite bind_eq.
    destruct (register_plugin p s) as [s1 [[]|e]] eqn:Hp.
    + intros H W. eapply IH; [exact H|].
      eapply register_plugin_well_finalized; eauto.
    + intros H W. inversion H; subst.
      eapply register_plugin_well_finalized; eauto.
Qed.

(** C9.  Loading the module registers the four base groups, each after a
    [finalize] call on the same class; and in any call of
    [registerPluginConfigGroups], whatever its outcome, every
    [registerGroup] call on a class the call itself created comes after a
    [finalize] call on that class. *)
Theorem C9_finalize_precedes_registerGroup :
  (snd (load_module initial_registry) = Returns (mkExports 0 1 2 3) /\
   filter is_register (history loaded_registry)
   = [EvRegister MasterConfig 0; EvRegister SlaveConfig 1;
      EvRegister InstanceConfig 2; EvRegister InstanceConfig 3] /\
   finalize_precedes_register (fun _ => True)
                              (history loaded_registry)) /\
  (forall pluginInfos s s' o,
      registerPluginConfigGroups pluginInfos s = (s', o) ->
      exists new,
        history s' = (history s ++ new)%list /\
        finalize_precedes_register (fun r => In (EvNew r) new) new).
Proof.
  split; [split; [|split]|].
  - vm_compute. reflexivity.
  - vm_compute. reflexivity.
  - intros h1 h2 c r E _.
    assert (F : finalized_first [] (history loaded_registry) = true)
      by (vm_compute; reflexivity).
    destruct (@finalized_first_sound _ _ F _ _ _ _ E) as [[] | D].
    exact D.
  - intros l s s' o H.
    destruct (@registerPluginConfigGroups_well_finalized _ _ _ _ _ H
                (well_finalized_refl s)) as (new & Hh & _ & P & _ & N).
    exists new. split; [exact Hh|].
    intros h1 h2 c r E O. eapply P; [exact E|]. apply N. exact O.
Qed.

Lemma C9_witness :
  exists new,
    history (fst (registerPluginConfigGroups
                    [mkPluginInfo "a" None None (Some "instance")]
                    loaded_registry))
    = (history loaded_registry ++ new)%list /\
    finalize_precedes_register (fun r => In (EvNew r) new) new.
Proof.
  exact (proj2 C9_finalize_precedes_registerGroup
           [mkPluginInfo "a" None None (Some "instance")]
           loaded_registry _ _ ltac:(vm_compute; reflexivity)).
Defined.

(* ================================================================== *)
(** * Properties of the config command *)

Section ConfigCommandFacts.

Variable St : Type.
Variable stringify : jsval -> string.
Variable stringify_indented : nat -> jsval -> string.
Variable instance : ConfigInstance St.
Variable configPath : string.

Lemma run_set (args : Args) (w : World St) :
  command_of args = VStr "set" ->
  handleConfigCommand stringify stringify_indented args instance
                      configPath w =
  let (st, o) := set instance (field args) (value_to_set args) (values w) in
  let w1 := mkWorld st (files w)
                    (trace w ++ [CallSet (field args) (value_to_set args)])
  in
  match o with
  | Returns _ =>
      let data := stringify_indented 4 (serialize instance st) in
      match write_error configPath (files w) with
      | None =>
          (mkWorld st (write_file configPath data (files w))
                   (trace w1 ++ [CallSerialize; OutputFile configPath data]),
           Returns tt)
      | Some message =>
          (mkWorld st (files w)
                   (trace w1 ++ [CallSerialize; OutputFile configPath data]),
           Throws (Error message))
      end
  | Throws (InvalidField message) =>
      (mkWorld st (files w) (trace w1 ++ [ConsoleError message]),
       Returns tt)
  | Throws (InvalidValue message) =>
      (mkWorld st (files w) (trace w1 ++ [ConsoleError message]),
       Returns tt)
  | Throws e => (w1, Throws e)
  end.
Proof.
  intros C. unfold handleConfigCommand, command_of in *. rewrite C.
  cbn [strict_eq_str String.eqb Ascii.eqb Bool.eqb].
  cbv beta iota zeta delta
      [value_to_set try_catch bind instance_set instance_serialize
       outputFile act modify gets console_error throw].
  destruct (is_undefined (value args));
    cbn [field value values files trace];
    destruct (set instance _ _ (values w)) as [st o];
    destruct o as [[]|e]; cbn [field value values files trace];
    try (destruct (write_error configPath (files w));
         cbn [field value values files trace];
         rewrite <- !app_assoc; reflexivity);
    destruct e; reflexivity.
Qed.

Lemma run_show (args : Args) (w : World St) :
  command_of args = VStr "show" ->
  handleConfigCommand stringify stringify_indented args instance
                      configPath w =
  let w1 := mkWorld (values w) (files w)
                    (trace w ++ [CallGet (field args)]) in
  match get instance (field args) (values w) with
  | Returns v =>
      (mkWorld (values w) (files w) (trace w1 ++ [ConsoleLog v]),
       Returns tt)
  | Throws (InvalidField message) =>
      (mkWorld (values w) (files w) (trace w1 ++ [ConsoleError message]),
       Returns tt)
  | Throws e => (w1, Throws e)
  end.
Proof.
  intros C. unfold handleConfigCommand, command_of in *. rewrite C.
  cbn [strict_eq_str String.eqb Ascii.eqb Bool.eqb].
  cbv beta iota zeta delta
      [try_catch bind instance_get console_log console_error act modify
       throw].
  cbn [values files trace].
  destruct (get instance (field args) (values w)) as [v|e];
    [reflexivity|]. destruct e; reflexivity.
Qed.

Lemma strict_eq_str_true (v : jsval) (text : string) :
  strict_eq_str v text = true <-> v = VStr text.
Proof.
  destruct v; simpl; split; intros H; try discriminate.
  - apply String.eqb_eq in H. congruence.
  - inversion H. apply String.eqb_refl.
Qed.

Lemma strict_eq_str_false (v : jsval) (text : string) :
  v <> VStr text -> strict_eq_str v text = false.
Proof.
  intros H. destruct (strict_eq_str v text) eqn:E; [|reflexivity].
  apply strict_eq_str_true in E. contradiction.
Qed.


(** C5.  For the "set" command with [args.value] undefined, the handler
    calls [instance.set] once, with the named field and null; the values
    it leaves are those this call produced, and the whole run is the run
    on the same arguments with an explicit null. *)
Theorem C5_omitted_value_is_set_to_null (args : Args) (w : World St) :
  command_of args = VStr "set" ->
  value args = VUndefined ->
  (exists rest,
      trace (fst (handleConfigCommand stringify stringify_indented args
                                      instance configPath w))
      = (trace w ++ CallSet (field args) VNull :: rest)%list /\
      forallb (fun a => negb (is_call_set a)) rest = true) /\
  values (fst (handleConfigCommand stringify stringify_indented args
                                   instance configPath w))
  = fst (set instance (field args) VNull (values w)) /\
  handleConfigCommand stringify stringify_indented args instance
                      configPath w
  = handleConfigCommand stringify stringify_indented
                        (mkArgs (positionals args) (field args) VNull)
                        instance configPath w.
Proof.
  intros C U.
  assert (V : value_to_set args = VNull)
    by (unfold value_to_set; rewrite U; reflexivity).
  split; [|split].
  - rewrite (run_set args w C), V.
    destruct (set instance (field args) VNull (values w)) as [st o].
    destruct o as [[]|e];
      [destruct (write_error configPath (files w))|destruct e];
      cbn [fst trace];
      rewrite <- ?app_assoc; eexists; (split; [reflexivity|reflexivity]).
  - rewrite (run_set args w C), V.
    destruct (set instance (field args) VNull (values w)) as [st o].
    destruct o as [[]|e];
      [destruct (write_error configPath (files w))|destruct e];
      reflexivity.
  - rewrite (run_set args w C), V.
    rewrite (run_set (mkArgs (positionals args) (field args) VNull) w C).
    reflexivity.
Qed.


(** C7.  For the "show" command: a value returned by [instance.get] is
    printed; an InvalidField thrown by it has its message printed on the
    error console and the handler returns; any other exception thrown by
    it leaves the handler uncaught, with nothing printed. *)
Theorem C7_show_prints_reports_or_propagates (args : Args) (w : World St) :
  command_of args = VStr "show" ->
  (forall v,
      get instance (field args) (values w) = Returns v ->
      handleConfigCommand stringify stringify_indented args instance
                          configPath w
      = (mkWorld (values w) (files w)
                 (trace w ++ [CallGet (field args); ConsoleLog v]),
         Returns tt)) /\
  (forall message,
      get instance (field args) (values w)
      = Throws (InvalidField message) ->
      handleConfigCommand stringify stringify_indented args instance
                          configPath w
      = (mkWorld (values w) (files w)
                 (trace w ++ [CallGet (field args); ConsoleError message]),
         Returns tt)) /\
  (forall e,
      get instance (field args) (values w) = Throws e ->
      (forall message, e <> InvalidField message) ->
      handleConfigCommand stringify stringify_indented args instance
                          configPath w
      = (mkWorld (values w) (files w)
                 (trace w ++ [CallGet (field args)]),
         Throws e)).
Proof.
  intros C. split; [|split].
  - intros v H. rewrite (run_show args w C), H. cbn [trace].
    rewrite <- app_assoc. reflexivity.
  - intros message H. rewrite (run_show args w C), H. cbn [trace].
    rewrite <- app_assoc. reflexivity.
  - intros e H N. rewrite (run_show args w C), H.
    destruct e; try reflexivity. exfalso. eapply N. reflexivity.
Qed.

(** C10.  When [args._[1]] is none of "list", "show" and "set", the
    handler returns and leaves the world as it found it: no call on the
    instance, no output, no file written, no exception. *)
Theorem C10_other_command_does_nothing (args : Args) (w : World St) :
  command_of args <> VStr "list" ->
  command_of args <> VStr "show" ->
  command_of args <> VStr "set" ->
  handleConfigCommand stringify stringify_indented args instance
                      configPath w
  = (w, Returns tt).
Proof.
  intros L Sh Se. unfold handleConfigCommand.
  fold (command_of args).
  rewrite (strict_eq_str_false L), (strict_eq_str_false Sh),
    (strict_eq_str_false Se).
  reflexivity.
Qed.

End ConfigCommandFacts.

(* ================================================================== *)
(** * The command on concrete inputs *)

Lemma C5_witness :
  values (fst (handleConfigCommand plain_json (fun _ => plain_json)
                 (mkArgs [VStr "config"; VStr "set"]
                         (VStr "instance.assigned_slave") VUndefined)
                 example_instance "instance.json" example_world))
  = fst (set example_instance (VStr "instance.assigned_slave") VNull
             (values example_world)).
Proof.
  exact (proj1 (proj2
           (@C5_omitted_value_is_set_to_null Values plain_json
              (fun _ => plain_json) example_instance "instance.json"
              (mkArgs [VStr "config"; VStr "set"]
                      (VStr "instance.assigned_slave") VUndefined)
              example_world eq_refl eq_refl))).
Defined.



Lemma C7_witness :
  handleConfigCommand plain_json (fun _ => plain_json)
    (mkArgs [VStr "config"; VStr "show"] (VStr "instance.name") VUndefined)
    example_instance "instance.json" example_world
  = (mkWorld (values example_world) (files example_world)
       (trace example_world
        ++ [CallGet (VStr "instance.name");
            ConsoleLog (VStr "New Instance")]),
     Returns tt) /\
  handleConfigCommand plain_json (fun _ => plain_json)
    (mkArgs [VStr "config"; VStr "show"] (VStr "instance.nope") VUndefined)
    example_instance "instance.json" example_world
  = (mkWorld (values example_world) (files example_world)
       (trace example_world
        ++ [CallGet (VStr "instance.nope");
            ConsoleError "instance.nope"]),
     Returns tt) /\
  handleConfigCommand plain_json (fun _ => plain_json)
    (mkArgs [VStr "config"; VStr "show"] (VStr "instance.name") VUndefined)
    broken_instance "instance.json" example_world
  = (mkWorld (values example_world) (files example_world)
       (trace example_world ++ [CallGet (VStr "instance.name")]),
     Throws (TypeError "this._values is undefined")).
Proof.
  split; [|split].
  - exact (proj1
             (@C7_show_prints_reports_or_propagates Values plain_json
                (fun _ => plain_json) example_instance "instance.json"
                (mkArgs [VStr "config"; VStr "show"]
                        (VStr "instance.name") VUndefined)
                example_world eq_refl)
             (VStr "New Instance") ltac:(vm_compute; reflexivity)).
  - exact (proj1 (proj2
             (@C7_show_prints_reports_or_propagates Values plain_json
                (fun _ => plain_json) example_instance "instance.json"
                (mkArgs [VStr "config"; VStr "show"]
                        (VStr "instance.nope") VUndefined)
                example_world eq_refl))
             "instance.nope" ltac:(vm_compute; reflexivity)).
  - exact (proj2 (proj2
             (@C7_show_prints_reports_or_propagates Values plain_json
                (fun _ => plain_json) broken_instance "instance.json"
                (mkArgs [VStr "config"; VStr "show"]
                        (VStr "instance.name") VUndefined)
                example_world eq_refl))
             (TypeError "this._values is undefined") eq_refl
             ltac:(intros message; discriminate)).
Defined.

Lemma C10_witness :
  handleConfigCommand plain_json (fun _ => plain_json)
    (mkArgs [VStr "config"; VStr "get"] (VStr "instance.name") VUndefined)
    example_instance "instance.json" example_world
  = (example_world, Returns tt) /\
  handleConfigCommand plain_json (fun _ => plain_json)
    (mkArgs [VStr "config"] VUndefined VUndefined)
    example_instance "instance.json" example_world
  = (example_world, Returns tt).
Proof.
  split.
  - exact (@C10_other_command_does_nothing Values plain_json
             (fun _ => plain_json) example_instance "instance.json"
             (mkArgs [VStr "config"; VStr "get"]
                     (VStr "instance.name") VUndefined)
             example_world
             ltac:(discriminate) ltac:(discriminate) ltac:(discriminate)).
  - exact (@C10_other_command_does_nothing Values plain_json
             (fun _ => plain_json) example_instance "instance.json"
             (mkArgs [VStr "config"] VUndefined VUndefined)
             example_world
             ltac:(discriminate) ltac:(discriminate) ltac:(discriminate)).
Defined.

(* ================================================================== *)
(** * Further properties of validation and registration *)

(** X1.  [validateGroup] is a pure check of the name: it never changes the
    registry; on a missing property it throws a TypeError; on a supplied
    class it returns exactly when the [groupName] of the class is the
    plugin's name, whatever the class extends; and the only Error it ever
    throws is the one of the name check. *)
Theorem X1_validateGroup_checks_only_the_name
        (pluginInfo : PluginInfo) (groupKey : GroupKey) (s : Registry) :
  fst (validateGroup pluginInfo groupKey s) = s /\
  (get_group pluginInfo groupKey = None ->
   exists message,
     snd (validateGroup pluginInfo groupKey s)
     = Throws (TypeError message)) /\
  (snd (validateGroup pluginInfo groupKey s) = Returns tt <->
   exists supplied,
     get_group pluginInfo groupKey = Some supplied /\
     read_groupName supplied s = Some (name pluginInfo)) /\
  (forall message,
      snd (validateGroup pluginInfo groupKey s) = Throws (Error message) ->
      message = "Expected " ++ key_text groupKey ++ " for "
                ++ name pluginInfo ++ " to be named after the plugin").
Proof.
  rewrite validateGroup_eq.
  destruct (get_group pluginInfo groupKey) as [r|].
  - destruct (option_string_eqb (read_groupName r s)
                                (Some (name pluginInfo))) eqn:E;
      cbn [fst snd].
    + apply option_string_eqb_eq in E.
      repeat split; try discriminate; eauto.
    + apply option_string_eqb_neq in E.
      repeat split; try discriminate.
      * intros (r' & Hr & Hn). inversion Hr; subst. contradiction.
      * intros message H. inversion H. reflexivity.
  - cbn [fst snd]. repeat split; try discriminate.
    + eauto.
    + intros (r' & Hr & _). discriminate.
Qed.

Lemma X1_witness :
  exists message,
    snd (validateGroup (mkPluginInfo "a" None None None)
                       KeyMasterConfigGroup loaded_registry)
    = Throws (TypeError message).
Proof.
  exact (proj1 (proj2 (X1_validateGroup_checks_only_the_name
                         (mkPluginInfo "a" None None None)
                         KeyMasterConfigGroup loaded_registry))
               eq_refl).
Defined.

Lemma attach_throws (c : ConfigId) (r : ref) (s1 s' : Registry)
      (e : exn) :
  attach c r s1 = (s', Throws e) ->
  s' = s1 /\ exists v, e = SchemaError v.
Proof.
  intros H. apply attach_cases in H.
  destruct H as [[-> [v Hv]] | [Hr _]]; [|discriminate].
  inversion Hv. eauto.
Qed.

Lemma registers_throws (c : ConfigId) (n : string) (s s' : Registry)
      (e : exn) :
  registers c n s s' (Throws e) ->
  (exists v, e = SchemaError v) \/ (exists message, e = Error message).
Proof.
  intros H. inversion H as [msg | r g s1 o G N A | s1 o A]; subst.
  - right. eauto.
  - left. apply attach_throws in A. tauto.
  - left. apply attach_throws in A. tauto.
Qed.

Lemma register_plugin_throws (p : PluginInfo) (s s' : Registry) (e : exn) :
  register_plugin p s = (s', Throws e) ->
  (exists v, e = SchemaError v) \/
  (exists groupKey, e = Error (not_named_after groupKey p)).
Proof.
  unfold register_plugin. rewrite bind_eq.
  destruct (register_master p s) as [sm [[]|e']] eqn:Hm.
  - rewrite register_instance_eq.
    destruct (truthy_string (instanceEntrypoint p)); [|discriminate].
    destruct (InstanceConfigGroup p) as [r|].
    + destruct (option_string_eqb _ _).
      * intros A. apply attach_throws in A. tauto.
      * intros H. inversion H. right. eauto.
    + rewrite synthesize_and_register_eq.
      intros A. apply attach_throws in A. tauto.
  - intros H. inversion H; subst. clear H.
    rewrite register_master_eq in Hm.
    destruct (MasterConfigGroup p) as [r|].
    + destruct (option_string_eqb _ _).
      * apply attach_throws in Hm. tauto.
      * inversion Hm. right. eauto.
    + rewrite synthesize_and_register_eq in Hm.
      apply attach_throws in Hm. tauto.
Qed.

(** X2.  The exceptions of [registerPluginConfigGroups]: whatever it
    throws is a schema error raised by [registerGroup] or the error of the
    name check for a descriptor of the list.  It never throws a TypeError
    and never the error of the capability check. *)
Theorem X2_registerPluginConfigGroups_exceptions
        (pluginInfos : list PluginInfo) :
  forall (s s' : Registry) (e : exn),
    registerPluginConfigGroups pluginInfos s = (s', Throws e) ->
    (exists v, e = SchemaError v) \/
    (exists p groupKey,
        In p pluginInfos /\
        e = Error ("Expected " ++ key_text groupKey ++ " for " ++ name p
                   ++ " to be named after the plugin")).
Proof.
  induction pluginInfos as [|p l IH]; intros s s' e; simpl.
  - discriminate.
  - rewrite bind_eq.
    destruct (register_plugin p s) as [s1 [[]|e1]] eqn:Hp.
    + intros H. destruct (IH _ _ _ H) as [V | (q & k & Hq & He)];
        [left; exact V | right; exists q, k; auto].
    + intros H. inversion H; subst.
      destruct (register_plugin_throws _ _ Hp) as [V | [k He]];
        [left; exact V | right; exists p, k; auto].
Qed.

Lemma X2_witness :
  (exists v, Error "Expected MasterConfigGroup for b to be named after the plugin"
             = SchemaError v) \/
  (exists p groupKey,
      In p [mkPluginInfo "b" (Some 0) None None] /\
      Error "Expected MasterConfigGroup for b to be named after the plugin"
      = Error ("Expected " ++ key_text groupKey ++ " for " ++ name p
               ++ " to be named after the plugin")).
Proof.
  exact (@X2_registerPluginConfigGroups_exceptions
           [mkPluginInfo "b" (Some 0) None None]
           loaded_registry loaded_registry
           (Error "Expected MasterConfigGroup for b to be named after the plugin")
           ltac:(vm_compute; reflexivity)).
Defined.

(** X3.  What [registerPluginConfigGroups] leaves alone, whatever its
    outcome: SlaveConfig; every class that was in the store before the
    call, supplied ones included; the groups already registered, which
    stay at the front of their Config in the same order; the locks of
    the Configs; and the history so far. *)
Theorem X3_registerPluginConfigGroups_frame
        (pluginInfos : list PluginInfo) (s s' : Registry)
        (o : outcome unit) :
  registerPluginConfigGroups pluginInfos s = (s', o) ->
  slave_config s' = slave_config s /\
  (forall r g, lookup r s = Some g -> lookup r s' = Some g) /\
  (forall c, exists added,
      groups (config_of c s') = (groups (config_of c s) ++ added)%list) /\
  (forall c, configLocked (config_of c s')
             = configLocked (config_of c s)) /\
  (exists new, history s' = (history s ++ new)%list).
Proof.
  intros H. pose proof (registerPluginConfigGroups_evolves _ _ H) as E.
  split; [apply E|]. split.
  - intros r g. apply evolves_lookup. exact E.
  - split; [apply E|]. split; apply E.
Qed.

Lemma X3_witness :
  slave_config
    (fst (registerPluginConfigGroups
            [mkPluginInfo "a" None None (Some "instance");
             mkPluginInfo "b" (Some 0) None None] loaded_registry))
  = slave_config loaded_registry.
Proof.
  exact (proj1 (@X3_registerPluginConfigGroups_frame
                  [mkPluginInfo "a" None None (Some "instance");
                   mkPluginInfo "b" (Some 0) None None]
                  loaded_registry _ _
                  ltac:(vm_compute; reflexivity))).
Defined.

Lemma master_names_on_success (pluginInfos : list PluginInfo) :
  forall (s s' : Registry),
    registerPluginConfigGroups pluginInfos s = (s', Returns tt) ->
    group_names (master_config s')
    = (group_names (master_config s)
       ++ map (fun p => Some (name p)) pluginInfos)%list.
Proof.
  induction pluginInfos as [|p l IH]; intros s s' H; simpl in *.
  - inversion H; subst. rewrite app_nil_r. reflexivity.
  - rewrite bind_eq in H.
    destruct (register_plugin p s) as [s1 [[]|e]] eqn:Hp; [|discriminate].
    rewrite (IH _ _ H).
    pose proof (register_plugin_success _ _ Hp) as (_ & [r G] & _).
    unfold group_names. rewrite G, map_app. simpl.
    rewrite <- app_assoc. reflexivity.
Qed.

(** X4.  When [registerPluginConfigGroups] returns, the group names of
    MasterConfig are those it had before followed by the names of all the
    plugins of the list, in the order of the list. *)
Theorem X4_master_groups_follow_the_list
        (pluginInfos : list PluginInfo) (s s' : Registry) :
  registerPluginConfigGroups pluginInfos s = (s', Returns tt) ->
  group_names (master_config s')
  = (group_names (master_config s)
     ++ map (fun p => Some (name p)) pluginInfos)%list.
Proof. apply master_names_on_success. Qed.

Lemma X4_witness :
  group_names
    (master_config
       (fst (registerPluginConfigGroups
               [mkPluginInfo "b" None None None;
                mkPluginInfo "a" None None (Some "instance")]
               loaded_registry)))
  = [Some "master"; Some "b"; Some "a"].
Proof.
  exact (@X4_master_groups_follow_the_list
           [mkPluginInfo "b" None None None;
            mkPluginInfo "a" None None (Some "instance")]
           loaded_registry _ ltac:(vm_compute; reflexivity)).
Defined.

Lemma has_group_evolves (s s' : Registry) (c : ConfigId) (n : string) :
  evolves s s' ->
  has_group n (config_of c s') = false ->
  has_group n (config_of c s) = false.
Proof.
  intros [_ _ G _ _] H. destruct (G c) as [added E].
  unfold has_group in *. rewrite E, existsb_app in H.
  apply orb_false_iff in H. tauto.
Qed.

Lemma has_group_last (n m : string) (r : ref)
      (l : list (option string * ref)) (b : bool) :
  has_group n (mkConfig (l ++ [(Some m, r)]) b)
  = has_group n (mkConfig l b) || String.eqb m n.
Proof.
  unfold has_group; simpl. rewrite existsb_app. simpl.
  rewrite orb_false_r. reflexivity.
Qed.

Lemma has_group_of_groups (n : string) (cfg cfg' : Config) :
  groups cfg = groups cfg' -> has_group n cfg = has_group n cfg'.
Proof. unfold has_group. intros ->. reflexivity. Qed.

Lemma registers_success_unlocked (c : ConfigId) (n : string)
      (s s' : Registry) :
  registers c n s s' (Returns tt) ->
  configLocked (config_of c s) = false.
Proof.
  intros H. inversion H as [msg | r g s1 o G N A | s1 o A]; subst;
    apply attach_cases in A;
    destruct A as [[_ [v Hv]] | [_ (g' & _ & _ & L & _)]];
    try discriminate; destruct c; exact L.
Qed.

Lemma register_plugin_needs (p : PluginInfo) (s s' : Registry) :
  register_plugin p s = (s', Returns tt) ->
  configLocked (master_config s) = false /\
  has_group (name p) (master_config s) = false /\
  (truthy_string (instanceEntrypoint p) = true ->
   configLocked (instance_config s) = false /\
   has_group (name p) (instance_config s) = false).
Proof.
  unfold register_plugin. rewrite bind_eq.
  destruct (register_master p s) as [sm [[]|e]] eqn:Hm; [|discriminate].
  pose proof (register_master_registers _ _ Hm) as R.
  pose proof (registers_success_unlocked R) as L.
  apply registers_success in R.
  destruct R as (F & r & _ & Other & _).
  pose proof (Other InstanceConfig ltac:(discriminate)) as Oi.
  simpl in Oi, L, F.
  intros Hi. split; [exact L|]. split; [exact F|].
  intros T. apply register_instance_registers in Hi; [|exact T].
  pose proof (registers_success_unlocked Hi) as Li.
  apply registers_success in Hi. destruct Hi as (Fi & _).
  simpl in Li, Fi. rewrite Oi in *. auto.
Qed.

Lemma names_free_on_success (pluginInfos : list PluginInfo) :
  forall (s s' : Registry),
    registerPluginConfigGroups pluginInfos s = (s', Returns tt) ->
    NoDup (map name pluginInfos) /\
    forall p, In p pluginInfos ->
      has_group (name p) (master_config s) = false /\
      (truthy_string (instanceEntrypoint p) = true ->
       has_group (name p) (instance_config s) = false).
Proof.
  induction pluginInfos as [|p l IH]; intros s s' H; simpl in *.
  - split; [constructor | intros q []].
  - rewrite bind_eq in H.
    destruct (register_plugin p s) as [s1 [[]|e]] eqn:Hp; [|discriminate].
    destruct (IH _ _ H) as [ND Free].
    pose proof (register_plugin_evolves _ _ Hp) as E.
    pose proof (register_plugin_needs _ _ Hp) as (_ & Fm & Fi).
    pose proof (register_plugin_success _ _ Hp) as (_ & [r G] & _).
    split.
    + constructor; [|exact ND]. intros I. apply in_map_iff in I.
      destruct I as (q & Eq & Hq). destruct (Free q Hq) as [Fq _].
      destruct (master_config s1) as [g1 b1]. simpl in G. subst g1.
      rewrite has_group_last, Eq, String.eqb_refl, orb_true_r in Fq.
      discriminate.
    + intros q [<- | Hq];
        [split; [exact Fm | intros T; apply (Fi T)]|].
      destruct (Free q Hq) as [Fq Fqi]. split.
      * exact (has_group_evolves MasterConfig _ E Fq).
      * intros T. exact (has_group_evolves InstanceConfig _ E (Fqi T)).
Qed.

(** X5.  What a call of [registerPluginConfigGroups] that returns implies
    about its input: the names of the plugins of the list are pairwise
    distinct; none of them named a group of MasterConfig before the call,
    nor a group of InstanceConfig if the plugin has an
    [instanceEntrypoint]; and, if the list is not empty, MasterConfig was
    not locked. *)
Theorem X5_success_needs_fresh_distinct_names
        (pluginInfos : list PluginInfo) (s s' : Registry) :
  registerPluginConfigGroups pluginInfos s = (s', Returns tt) ->
  NoDup (map name pluginInfos) /\
  (forall p, In p pluginInfos ->
     has_group (name p) (master_config s) = false /\
     (truthy_string (instanceEntrypoint p) = true ->
      has_group (name p) (instance_config s) = false)) /\
  (pluginInfos <> [] -> configLocked (master_config s) = false).
Proof.
  intros H. destruct (names_free_on_success _ _ H) as [ND Free].
  split; [exact ND|]. split; [exact Free|].
  destruct pluginInfos as [|p l]; [congruence|]. intros _.
  simpl in H. rewrite bind_eq in H.
  destruct (register_plugin p s) as [s1 [[]|e]] eqn:Hp; [|discriminate].
  apply (register_plugin_needs _ _ Hp).
Qed.

Lemma X5_witness :
  NoDup (map name [mkPluginInfo "b" None None None;
                   mkPluginInfo "a" None None (Some "instance")]).
Proof.
  exact (proj1 (@X5_success_needs_fresh_distinct_names
                  [mkPluginInfo "b" None None None;
                   mkPluginInfo "a" None None (Some "instance")]
                  loaded_registry _ ltac:(vm_compute; reflexivity))).
Defined.

Lemma attach_returns (c : ConfigId) (r : ref) (g : GroupClass)
      (n : string) (s1 : Registry) :
  configLocked (config_of c s1) = false ->
  lookup r s1 = Some g ->
  locked g = true ->
  groupName g = Some n ->
  has_group n (config_of c s1) = false ->
  exists s', attach c r s1 = (s', Returns tt).
Proof.
  intros L G K N F. unfold attach. rewrite L, G, K, N. simpl.
  unfold has_group in F. rewrite F. eauto.
Qed.

Lemma half_returns (c : ConfigId) (n : string) (supplied : option ref)
      (s : Registry) :
  configLocked (config_of c s) = false ->
  has_group n (config_of c s) = false ->
  valid_supply n supplied s ->
  exists s',
    match supplied with
    | Some r =>
        if option_string_eqb (read_groupName r s) (Some n)
        then attach c r (record (EvRegister c r) s)
        else (s, Throws (Error ""))
    | None => synthesize_and_register c n s
    end = (s', Returns tt).
Proof.
  intros L F V. destruct supplied as [r|].
  - destruct V as (g & G & N & K).
    replace (option_string_eqb (read_groupName r s) (Some n)) with true.
    + apply (@attach_returns c r g n); auto; destruct c; assumption.
    + symmetry. apply option_string_eqb_eq. unfold read_groupName.
      rewrite G. exact N.
  - rewrite synthesize_and_register_eq.
    apply (@attach_returns c _ (synthesized n) n);
      try reflexivity; try (destruct c; assumption).
    unfold lookup; simpl. apply nth_error_length.
Qed.

Lemma register_plugin_returns (p : PluginInfo) (s : Registry) :
  configLocked (master_config s) = false ->
  configLocked (instance_config s) = false ->
  registrable p s ->
  exists s', register_plugin p s = (s', Returns tt).
Proof.
  intros Lm Li (Fm & Vm & I).
  destruct (@half_returns MasterConfig (name p) (MasterConfigGroup p) s
              Lm Fm Vm) as [sm Hm].
  assert (Rm : register_master p s = (sm, Returns tt)).
  { rewrite register_master_eq.
    destruct (MasterConfigGroup p) as [r|]; [|exact Hm].
    destruct (option_string_eqb _ _); [exact Hm | discriminate]. }
  unfold register_plugin. rewrite (bind_returns _ _ _ Rm).
  destruct (truthy_string (instanceEntrypoint p)) eqn:T.
  - destruct (I eq_refl) as [Fi Vi].
    pose proof (register_master_registers _ _ Rm) as R.
    assert (E : evolves s sm)
      by (eapply registers_evolves; [|exact R]; discriminate).
    apply registers_success in R. destruct R as (_ & r & _ & Other & _).
    pose proof (Other InstanceConfig ltac:(discriminate)) as Oi.
    simpl in Oi.
    assert (Vi' : valid_supply (name p) (InstanceConfigGroup p) sm).
    { destruct (InstanceConfigGroup p) as [ri|]; [|constructor].
      destruct Vi as (g & G & N & K). exists g.
      split; [exact (evolves_lookup _ E G) | auto]. }
    destruct (@half_returns InstanceConfig (name p)
                (InstanceConfigGroup p) sm) as [si Hi]; simpl;
      try (rewrite Oi; assumption); [exact Vi'|].
    exists si. rewrite register_instance_eq, T.
    destruct (InstanceConfigGroup p) as [ri|]; [|exact Hi].
    destruct (option_string_eqb _ _); [exact Hi | discriminate].
  - exists sm. apply register_instance_skipped. exact T.
Qed.

Lemma registrable_after (p q : PluginInfo) (s s1 : Registry) :
  register_plugin p s = (s1, Returns tt) ->
  name q <> name p ->
  registrable q s -> registrable q s1.
Proof.
  intros Hp D (Fm & Vm & I).
  pose proof (register_plugin_evolves _ _ Hp) as E.
  pose proof (register_plugin_success _ _ Hp) as (_ & [r G] & Gi).
  assert (Ne : String.eqb (name p) (name q) = false).
  { apply String.eqb_neq. congruence. }
  assert (V : forall sup, valid_supply (name q) sup s ->
                          valid_supply (name q) sup s1).
  { intros [ri|] H; [|exact H]. destruct H as (g & Hg & N & K).
    exists g. split; [exact (evolves_lookup _ E Hg) | auto]. }
  split; [|split].
  - destruct (master_config s1) as [g1 b1]. simpl in G. subst g1.
    rewrite has_group_last, Ne, orb_false_r.
    rewrite <- Fm. apply has_group_of_groups. reflexivity.
  - apply V. exact Vm.
  - intros T. destruct (I T) as [Fi Vi]. split; [|apply V; exact Vi].
    destruct (truthy_string (instanceEntrypoint p)).
    + destruct Gi as [r' Gi].
      destruct (instance_config s1) as [g1 b1]. simpl in Gi. subst g1.
      rewrite has_group_last, Ne, orb_false_r.
      rewrite <- Fi. apply has_group_of_groups. reflexivity.
    + rewrite Gi. exact Fi.
Qed.

(** X6.  A sufficient condition for [registerPluginConfigGroups] to
    return: MasterConfig and InstanceConfig are not locked, the plugin
    names are pairwise distinct and free in the Configs they go to, and
    every supplied group is a finalized class named after its plugin. *)
Theorem X6_registrable_plugins_register
        (pluginInfos : list PluginInfo) :
  forall (s : Registry),
    configLocked (master_config s) = false ->
    configLocked (instance_config s) = false ->
    NoDup (map name pluginInfos) ->
    (forall p, In p pluginInfos -> registrable p s) ->
    exists s', registerPluginConfigGroups pluginInfos s = (s', Returns tt).
Proof.
  induction pluginInfos as [|p l IH]; intros s Lm Li ND R; simpl.
  - eexists. reflexivity.
  - destruct (register_plugin_returns Lm Li (R p (or_introl eq_refl)))
      as [s1 Hp].
    rewrite (bind_returns _ _ _ Hp).
    pose proof (register_plugin_evolves _ _ Hp) as E.
    inversion ND as [|x xs Nin ND']; subst.
    apply IH.
    + rewrite <- Lm. apply (ev_locked E MasterConfig).
    + rewrite <- Li. apply (ev_locked E InstanceConfig).
    + exact ND'.
    + intros q Hq. apply (@registrable_after p q s s1 Hp).
      * intros Eq. apply Nin. rewrite <- Eq. apply in_map. exact Hq.
      * apply R. right. exact Hq.
Qed.

Lemma X6_witness :
  exists s',
    registerPluginConfigGroups
      [mkPluginInfo "a" None None (Some "instance");
       mkPluginInfo "p" (Some 4) (Some 4) (Some "instance")]
      registry_with_plain_group
    = (s', Returns tt).
Proof.
  apply X6_registrable_plugins_register.
  - vm_compute. reflexivity.
  - vm_compute. reflexivity.
  - repeat constructor; simpl; intuition discriminate.
  - intros p [<- | [<- | []]]; unfold registrable, valid_supply;
      cbn [name MasterConfigGroup InstanceConfigGroup instanceEntrypoint].
    + split; [vm_compute; reflexivity|]. split; [exact I|].
      intros _. split; [vm_compute; reflexivity | exact I].
    + split; [vm_compute; reflexivity|].
      assert (V : exists g, lookup 4 registry_with_plain_group = Some g /\
                            groupName g = Some "p" /\ locked g = true).
      { exists (mkGroup ConfigGroup (Some "p") [] true).
        repeat split; vm_compute; reflexivity. }
      split; [exact V|]. intros _.
      split; [vm_compute; reflexivity | exact V].
Defined.

(** X7.  Registering in batches: a call on a concatenated list behaves as
    the call on the first part followed, if that returns, by the call on
    the second part in the registry the first one left; if the first
    part throws, the second part is not looked at. *)
Theorem X7_registration_in_batches
        (first second : list PluginInfo) (s : Registry) :
  (forall s1,
      registerPluginConfigGroups first s = (s1, Returns tt) ->
      registerPluginConfigGroups (first ++ second) s
      = registerPluginConfigGroups second s1) /\
  (forall s1 e,
      registerPluginConfigGroups first s = (s1, Throws e) ->
      registerPluginConfigGroups (first ++ second) s = (s1, Throws e)).
Proof.
  split.
  - intros s1 H. rewrite registerPluginConfigGroups_app.
    rewrite (bind_returns _ _ _ H). reflexivity.
  - intros s1 e H. rewrite registerPluginConfigGroups_app.
    apply bind_throws. exact H.
Qed.

Lemma X7_witness :
  registerPluginConfigGroups
    ([mkPluginInfo "a" None None None]
       ++ [mkPluginInfo "b" None None (Some "instance")]) loaded_registry
  = registerPluginConfigGroups
      [mkPluginInfo "b" None None (Some "instance")]
      (fst (registerPluginConfigGroups [mkPluginInfo "a" None None None]
                                       loaded_registry)) /\
  registerPluginConfigGroups
    ([mkPluginInfo "b" (Some 0) None None]
       ++ [mkPluginInfo "a" None None None]) loaded_registry
  = (loaded_registry,
     Throws (Error "Expected MasterConfigGroup for b to be named after the plugin")).
Proof.
  split.
  - exact (proj1 (X7_registration_in_batches
                    [mkPluginInfo "a" None None None]
                    [mkPluginInfo "b" None None (Some "instance")]
                    loaded_registry)
             _ ltac:(vm_compute; reflexivity)).
  - exact (proj2 (X7_registration_in_batches
                    [mkPluginInfo "b" (Some 0) None None]
                    [mkPluginInfo "a" None None None]
                    loaded_registry)
             _ _ ltac:(vm_compute; reflexivity)).
Defined.

Lemma has_group_of_name (n : string) (cfg : Config) :
  In (Some n) (group_names cfg) -> has_group n cfg = true.
Proof.
  unfold group_names, has_group. intros H. apply in_map_iff in H.
  destruct H as (e & Ee & He). apply existsb_exists. exists e.
  split; [exact He|]. rewrite Ee. simpl. apply String.eqb_refl.
Qed.

(** X8.  Registration is not repeatable: once a call has returned, a later
    call on a list that has a plugin name in common with the first list
    never returns.  In particular the same non-empty list cannot be
    registered twice. *)
Theorem X8_registering_a_name_twice_throws
        (first second : list PluginInfo) (s s1 : Registry)
        (p q : PluginInfo) :
  registerPluginConfigGroups first s = (s1, Returns tt) ->
  In p first -> In q second -> name p = name q ->
  exists s2 e, registerPluginConfigGroups second s1 = (s2, Throws e).
Proof.
  intros H1 Hp Hq E.
  destruct (registerPluginConfigGroups second s1) as [s2 [[]|e]] eqn:H2;
    [|eauto].
  exfalso.
  destruct (names_free_on_success _ _ H2) as [_ Free].
  destruct (Free q Hq) as [F _].
  assert (T : has_group (name q) (master_config s1) = true).
  { apply has_group_of_name. rewrite (master_names_on_success _ _ H1).
    apply in_or_app. right. rewrite <- E.
    apply (in_map (fun x => Some (name x))). exact Hp. }
  congruence.
Qed.

Lemma X8_witness :
  exists s2 e,
    registerPluginConfigGroups
      [mkPluginInfo "a" None None None]
      (fst (registerPluginConfigGroups [mkPluginInfo "a" None None None]
                                       loaded_registry))
    = (s2, Throws e).
Proof.
  exact (@X8_registering_a_name_twice_throws
           [mkPluginInfo "a" None None None]
           [mkPluginInfo "a" None None None]
           loaded_registry _
           (mkPluginInfo "a" None None None)
           (mkPluginInfo "a" None None None)
           ltac:(vm_compute; reflexivity)
           ltac:(left; reflexivity) ltac:(left; reflexivity) eq_refl).
Defined.

Lemma locked_master_rejects (p : PluginInfo) (s : Registry) :
  configLocked (master_config s) = true ->
  exists s' e,
    register_plugin p s = (s', Throws e) /\
    master_config s' = master_config s /\
    slave_config s' = slave_config s /\
    instance_config s' = instance_config s.
Proof.
  intros L.
  assert (A : forall r s1,
             master_config s1 = master_config s ->
             attach MasterConfig r s1
             = (s1, Throws (SchemaError ConfigLocked))).
  { intros r s1 E. unfold attach. simpl. rewrite E, L. reflexivity. }
  assert (H : exists s' e,
             register_master p s = (s', Throws e) /\
             master_config s' = master_config s /\
             slave_config s' = slave_config s /\
             instance_config s' = instance_config s).
  { rewrite register_master_eq.
    destruct (MasterConfigGroup p) as [r|].
    - destruct (option_string_eqb _ _).
      + rewrite A by reflexivity. eexists _, _. split; [reflexivity|].
        auto.
      + eexists _, _. split; [reflexivity|]. auto.
    - rewrite synthesize_and_register_eq, A by reflexivity.
      eexists _, _. split; [reflexivity|]. auto. }
  destruct H as (s' & e & Hm & Keep). exists s', e.
  split; [|exact Keep]. unfold register_plugin. apply bind_throws.
  exact Hm.
Qed.

(** X9.  After [finalizeConfigs] the three Configs are locked with their
    groups as they were, and no plugin can be registered any more: a call
    of [registerPluginConfigGroups] on a non-empty list throws at its
    first descriptor and leaves the three Configs as [finalizeConfigs]
    left them. *)
Theorem X9_no_registration_after_finalizeConfigs
        (s : Registry) (p : PluginInfo) (rest : list PluginInfo) :
  snd (finalizeConfigs s) = Returns tt /\
  (forall c,
      config_of c (fst (finalizeConfigs s))
      = mkConfig (groups (config_of c s)) true) /\
  classes (fst (finalizeConfigs s)) = classes s /\
  exists s' e,
    registerPluginConfigGroups (p :: rest) (fst (finalizeConfigs s))
    = (s', Throws e) /\
    forall c, config_of c s' = config_of c (fst (finalizeConfigs s)).
Proof.
  split; [reflexivity|]. split; [intros c; destruct c; reflexivity|].
  split; [reflexivity|].
  destruct (@locked_master_rejects p (fst (finalizeConfigs s)) eq_refl)
    as (s' & e & Hp & Km & Ks & Ki).
  exists s', e. split.
  - simpl. apply bind_throws. exact Hp.
  - intros c. destruct c; assumption.
Qed.

(** X10.  The schema the module builds when it is loaded: loading
    completes without an exception; the four base groups are finalized;
    MasterConfig holds the group "master", SlaveConfig the group "slave"
    and InstanceConfig the groups "instance" and "factorio", none of the
    Configs being locked; the full names of all fields are pairwise
    distinct; and every field has a default that fits it: a literal or a
    generator of the declared type, or none on an optional field. *)
Theorem X10_loaded_schema_is_well_formed :
  snd (load_module initial_registry) = Returns (mkExports 0 1 2 3) /\
  forallb locked (classes loaded_registry) = true /\
  map (fun c => (group_names (config_of c loaded_registry),
                 configLocked (config_of c loaded_registry)))
      [MasterConfig; SlaveConfig; InstanceConfig]
  = [([Some "master"], false); ([Some "slave"], false);
     ([Some "instance"; Some "factorio"], false)] /\
  distinct (map fullName
                (flat_map definitions (classes loaded_registry))) = true /\
  forallb (fun d => default_fits (item d))
          (flat_map definitions (classes loaded_registry)) = true /\
  map (fun g => List.length (definitions g)) (classes loaded_registry)
  = [11; 8; 3; 5].
Proof. repeat split; vm_compute; reflexivity. Qed.

(* ================================================================== *)
(** * The groups of a descriptor the loop reaches *)

Lemma bind_assoc {St A B C : Type} (m : M St A) (k : A -> M St B)
      (k' : B -> M St C) (s : St) :
  bind (bind m k) k' s = bind m (fun a => bind (k a) k') s.
Proof.
  unfold bind. destruct (m s) as [s1 [a|e]]; reflexivity.
Qed.

Lemma registerPluginConfigGroups_snoc (before : list PluginInfo)
      (p : PluginInfo) (s s1 : Registry) :
  registerPluginConfigGroups before s = (s1, Returns tt) ->
  registerPluginConfigGroups (before ++ [p]) s = register_plugin p s1.
Proof.
  intros H. rewrite registerPluginConfigGroups_app.
  rewrite (bind_returns _ _ _ H). simpl. rewrite bind_eq.
  destruct (register_plugin p s1) as [s' [[]|e]]; reflexivity.
Qed.

Lemma rest_evolves (p : PluginInfo) (after : list PluginInfo)
      (sm sf : Registry) (o : outcome unit) :
  bind (register_instance p) (fun _ => registerPluginConfigGroups after) sm
  = (sf, o) ->
  evolves sm sf.
Proof.
  rewrite bind_eq.
  destruct (register_instance p sm) as [si [[]|e]] eqn:Hi.
  - intros H. eapply evolves_trans.
    + eapply register_instance_evolves; exact Hi.
    + eapply registerPluginConfigGroups_evolves; exact H.
  - intros H; inversion H; subst.
    eapply register_instance_evolves; exact Hi.
Qed.

(** C3, counterexample to the wording.  The first descriptor supplies a
    MasterConfigGroup that is not named after it, so the call throws
    before it reaches the second descriptor, which supplies none: no group
    is synthesized for "inventory" and MasterConfig has none under that
    name. *)
Lemma C3_counterexample : ~ every_plugin_without_group_gets_one.
Proof.
  intros H.
  pose (l := [mkPluginInfo "b" (Some 0) None None;
              mkPluginInfo "inventory" None None None]).
  assert (R : registerPluginConfigGroups l loaded_registry
              = (loaded_registry,
                 Throws (Error "Expected MasterConfigGroup for b to be named after the plugin")))
    by (vm_compute; reflexivity).
  specialize (H l loaded_registry _ _ R
                (mkPluginInfo "inventory" None None None)
                ltac:(right; left; reflexivity) eq_refl).
  vm_compute in H. discriminate H.
Qed.

(** C3, amended.  When the loop reaches a descriptor without
    MasterConfigGroup, the descriptors before it having been processed,
    then whatever happens afterwards the call has created a class that
    extends [PluginConfigGroup], is named after the plugin, has no
    definitions and is finalized, and has handed it to
    [MasterConfig.registerGroup] right after finalizing it.  If MasterConfig
    was not locked and had no group of that name, the class is registered
    under the plugin's name and stays registered; otherwise the call
    throws a schema error there and MasterConfig is as the earlier
    descriptors left it.  And when the call returns, every plugin of the
    list has exactly one group under its name in MasterConfig, which for a
    plugin without MasterConfigGroup is the class created for it. *)
Theorem C3_reached_plugin_gets_a_synthesized_master_group :
  (forall before pluginInfo after s s1 sf o,
      registerPluginConfigGroups before s = (s1, Returns tt) ->
      MasterConfigGroup pluginInfo = None ->
      registerPluginConfigGroups (before ++ pluginInfo :: after) s
      = (sf, o) ->
      lookup (List.length (classes s1)) sf
      = Some (mkGroup PluginConfigGroup (Some (name pluginInfo)) [] true) /\
      (exists later,
          history sf
          = (history s1
             ++ [EvNew (List.length (classes s1));
                 EvFinalize (List.length (classes s1));
                 EvRegister MasterConfig (List.length (classes s1))]
             ++ later)%list) /\
      ((configLocked (master_config s1) = false /\
        has_group (name pluginInfo) (master_config s1) = false /\
        exists added,
          groups (master_config sf)
          = (groups (master_config s1)
             ++ (Some (name pluginInfo), List.length (classes s1))
             :: added)%list) \/
       ((configLocked (master_config s1) = true \/
         has_group (name pluginInfo) (master_config s1) = true) /\
        (exists v, o = Throws (SchemaError v)) /\
        master_config sf = master_config s1))) /\
  (forall pluginInfos s s',
      registerPluginConfigGroups pluginInfos s = (s', Returns tt) ->
      forall pluginInfo, In pluginInfo pluginInfos ->
        count_groups (name pluginInfo) (master_config s') = 1 /\
        (MasterConfigGroup pluginInfo = None ->
         exists r,
           List.length (classes s) <= r /\
           In (Some (name pluginInfo), r) (groups (master_config s')) /\
           lookup r s'
           = Some (mkGroup PluginConfigGroup (Some (name pluginInfo)) []
                           true))).
Proof.
  split; [|intros l; apply one_master_group_on_return].
  intros before p after s s1 sf o Hb N H.
  rewrite registerPluginConfigGroups_app, (bind_returns _ _ _ Hb) in H.
  simpl in H. unfold register_plugin in H.
  rewrite bind_assoc, bind_eq in H.
  destruct (register_master p s1) as [sm om] eqn:Hm.
  destruct (@register_master_without_group _ _ _ _ N Hm)
    as (L & Hh & Cases).
  destruct Cases as [(-> & Lk & Fr & G) | ([v ->] & Keep & Why)].
  - pose proof (rest_evolves _ _ _ H) as E.
    split; [exact (evolves_lookup _ E L)|]. split.
    + destruct (ev_history E) as [later El]. exists later.
      rewrite El, Hh, <- app_assoc. reflexivity.
    + left. split; [exact Lk|]. split; [exact Fr|].
      destruct (ev_groups E MasterConfig) as [added Ea]. exists added.
      simpl in Ea. rewrite Ea, G, <- app_assoc. reflexivity.
  - inversion H; subst. split; [exact L|]. split.
    + exists []. rewrite Hh. reflexivity.
    + right. split; [exact Why|]. split; [eauto | exact Keep].
Qed.

Lemma C3_witness :
  lookup
    (List.length
       (classes (fst (registerPluginConfigGroups
                        [mkPluginInfo "a" None None None]
                        loaded_registry))))
    (fst (registerPluginConfigGroups
            ([mkPluginInfo "a" None None None]
               ++ mkPluginInfo "inventory" None None None
               :: [mkPluginInfo "z" (Some 0) None None])
            loaded_registry))
  = Some (mkGroup PluginConfigGroup (Some "inventory") [] true) /\
  count_groups "inventory"
    (master_config
       (fst (registerPluginConfigGroups
               [mkPluginInfo "a" None None (Some "instance");
                mkPluginInfo "inventory" None None None]
               loaded_registry)))
  = 1.
Proof.
  split.
  - exact (proj1 (proj1 C3_reached_plugin_gets_a_synthesized_master_group
                    [mkPluginInfo "a" None None None]
                    (mkPluginInfo "inventory" None None None)
                    [mkPluginInfo "z" (Some 0) None None]
                    loaded_registry _ _ _
                    ltac:(vm_compute; reflexivity) eq_refl
                    ltac:(vm_compute; reflexivity))).
  - exact (proj1 (proj2 C3_reached_plugin_gets_a_synthesized_master_group
                    [mkPluginInfo "a" None None (Some "instance");
                     mkPluginInfo "inventory" None None None]
                    loaded_registry _
                    ltac:(vm_compute; reflexivity)
                    (mkPluginInfo "inventory" None None None)
                    ltac:(right; left; reflexivity))).
Defined.

Lemma register_plugin_instance_entry (p : PluginInfo) (s s' : Registry) :
  register_plugin p s = (s', Returns tt) ->
  truthy_string (instanceEntrypoint p) = true ->
  match InstanceConfigGroup p with
  | Some supplied =>
      groups (instance_config s')
      = (groups (instance_config s) ++ [(Some (name p), supplied)])%list
  | None =>
      exists r,
        List.length (classes s) <= r /\
        groups (instance_config s')
        = (groups (instance_config s) ++ [(Some (name p), r)])%list /\
        lookup r s'
        = Some (mkGroup PluginConfigGroup (Some (name p)) [] true)
  end.
Proof.
  unfold register_plugin. rewrite bind_eq.
  destruct (register_master p s) as [sm [[]|e]] eqn:Hm; [|discriminate].
  pose proof (register_master_registers _ _ Hm) as R.
  assert (E : evolves s sm)
    by (eapply registers_evolves; [|exact R]; discriminate).
  apply registers_success in R. destruct R as (_ & r0 & _ & Other & _).
  pose proof (Other InstanceConfig ltac:(discriminate)) as Oi.
  simpl in Oi.
  intros Hi T. rewrite register_instance_eq, T in Hi.
  destruct (InstanceConfigGroup p) as [supplied|].
  - destruct (option_string_eqb (read_groupName supplied sm)
                                (Some (name p))) eqn:Q; [|discriminate].
    apply option_string_eqb_eq in Q.
    apply attach_success in Hi. destruct Hi as (g & G & _ & _ & ->).
    assert (N : groupName g = Some (name p)).
    { unfold read_groupName in Q.
      change (lookup supplied
                (record (EvRegister InstanceConfig supplied) sm))
        with (lookup supplied sm) in G.
      rewrite G in Q. exact Q. }
    simpl. rewrite N, Oi. reflexivity.
  - rewrite synthesize_and_register_eq in Hi.
    apply attach_success in Hi. destruct Hi as (g & G & _ & _ & ->).
    assert (Eg : g = synthesized (name p)).
    { unfold lookup in G; simpl in G.
      rewrite nth_error_length in G. congruence. }
    subst g. exists (List.length (classes sm)).
    split; [apply length_classes_evolves; exact E|]. split.
    + simpl. rewrite Oi. reflexivity.
    + unfold lookup; simpl. apply nth_error_length.
Qed.

Lemma register_plugin_throws_keeps_instance (p : PluginInfo)
      (s s' : Registry) (e : exn) :
  register_plugin p s = (s', Throws e) ->
  instance_config s' = instance_config s.
Proof.
  unfold register_plugin. rewrite bind_eq.
  destruct (register_master p s) as [sm [[]|e']] eqn:Hm.
  - pose proof (register_master_registers _ _ Hm) as R.
    apply registers_success in R. destruct R as (_ & r0 & _ & Other & _).
    pose proof (Other InstanceConfig ltac:(discriminate)) as Oi.
    simpl in Oi. rewrite register_instance_eq.
    destruct (truthy_string (instanceEntrypoint p)); [|discriminate].
    destruct (InstanceConfigGroup p) as [supplied|].
    + destruct (option_string_eqb _ _).
      * intros A. apply attach_throws in A. destruct A as [-> _].
        exact Oi.
      * intros H; inversion H; subst. exact Oi.
    + rewrite synthesize_and_register_eq.
      intros A. apply attach_throws in A. destruct A as [-> _].
      exact Oi.
  - intros H; inversion H; subst.
    eapply register_master_instance_config; exact Hm.
Qed.

(** C4, counterexample to the wording.  The descriptor has an
    [instanceEntrypoint] and supplies as InstanceConfigGroup the class of
    the base group "instance", which is not named after it: the validation
    throws and InstanceConfig gains no group. *)
Lemma C4_counterexample : ~ instance_group_iff_entrypoint.
Proof.
  intros H.
  pose (p := mkPluginInfo "p" None (Some 2) (Some "instance")).
  pose (s' := fst (registerPluginConfigGroups [p] loaded_registry)).
  assert (R : registerPluginConfigGroups [p] loaded_registry
              = (s', Throws (Error "Expected InstanceConfigGroup for p to be named after the plugin")))
    by (vm_compute; reflexivity).
  destruct (proj1 (H p loaded_registry _ _ R) eq_refl) as [r G].
  apply (f_equal (@List.length _)) in G. rewrite length_app in G.
  vm_compute in G. discriminate G.
Qed.

(** C4, amended.  For a descriptor the loop reaches, the descriptors
    before it having been processed.  Without [instanceEntrypoint] the
    call leaves InstanceConfig as it was and makes no [registerGroup] call
    on it, even if an InstanceConfigGroup is supplied.  If the descriptor
    makes the call throw, InstanceConfig gets no group from it.  If the
    descriptor is processed and has an [instanceEntrypoint], InstanceConfig
    gains one group under the plugin's name: the supplied
    InstanceConfigGroup itself or, when none is supplied, a class created
    for it that extends [PluginConfigGroup], is named after the plugin,
    has no definitions and is finalized.  The descriptor is processed
    whenever MasterConfig and InstanceConfig are not locked, its name is
    free in the Configs it goes to and the groups it supplies are
    finalized classes named after it.  And when the call returns, the
    names added to InstanceConfig are those of the descriptors with
    [instanceEntrypoint], in the order of the list. *)
Theorem C4_instance_group_of_a_reached_descriptor :
  (forall before p s s1 sf o,
      registerPluginConfigGroups before s = (s1, Returns tt) ->
      registerPluginConfigGroups (before ++ [p]) s = (sf, o) ->
      truthy_string (instanceEntrypoint p) = false ->
      instance_config sf = instance_config s1 /\
      exists new, history sf = (history s1 ++ new)%list /\
                  forallb (fun e => negb (is_instance_register e)) new
                  = true) /\
  (forall before p s s1 sf e,
      registerPluginConfigGroups before s = (s1, Returns tt) ->
      registerPluginConfigGroups (before ++ [p]) s = (sf, Throws e) ->
      instance_config sf = instance_config s1) /\
  (forall before p s s1 sf,
      registerPluginConfigGroups before s = (s1, Returns tt) ->
      registerPluginConfigGroups (before ++ [p]) s = (sf, Returns tt) ->
      truthy_string (instanceEntrypoint p) = true ->
      match InstanceConfigGroup p with
      | Some supplied =>
          groups (instance_config sf)
          = (groups (instance_config s1)
             ++ [(Some (name p), supplied)])%list
      | None =>
          exists r,
            List.length (classes s1) <= r /\
            groups (instance_config sf)
            = (groups (instance_config s1) ++ [(Some (name p), r)])%list /\
            lookup r sf
            = Some (mkGroup PluginConfigGroup (Some (name p)) [] true)
      end) /\
  (forall before p s s1,
      registerPluginConfigGroups before s = (s1, Returns tt) ->
      configLocked (master_config s1) = false ->
      configLocked (instance_config s1) = false ->
      registrable p s1 ->
      exists sf,
        registerPluginConfigGroups (before ++ [p]) s = (sf, Returns tt)) /\
  (forall pluginInfos s s',
      registerPluginConfigGroups pluginInfos s = (s', Returns tt) ->
      group_names (instance_config s')
      = (group_names (instance_config s)
         ++ map (fun p => Some (name p))
                (filter (fun p => truthy_string (instanceEntrypoint p))
                        pluginInfos))%list).
Proof.
  split; [|split; [|split; [|split]]].
  - intros before p s s1 sf o Hb H T.
    rewrite (@registerPluginConfigGroups_snoc before p s s1 Hb) in H.
    exact (register_plugin_without_entrypoint _ _ H T).
  - intros before p s s1 sf e Hb H.
    rewrite (@registerPluginConfigGroups_snoc before p s s1 Hb) in H.
    exact (register_plugin_throws_keeps_instance _ _ H).
  - intros before p s s1 sf Hb H T.
    rewrite (@registerPluginConfigGroups_snoc before p s s1 Hb) in H.
    exact (register_plugin_instance_entry _ _ H T).
  - intros before p s s1 Hb Lm Li R.
    rewrite (@registerPluginConfigGroups_snoc before p s s1 Hb).
    exact (register_plugin_returns Lm Li R).
  - intros l. apply instance_names_on_success.
Qed.

Lemma C4_witness :
  instance_config
    (fst (registerPluginConfigGroups
            ([mkPluginInfo "a" None None (Some "instance")]
               ++ [mkPluginInfo "b" None (Some 4) None])
            registry_with_plugin_group))
  = instance_config
      (fst (registerPluginConfigGroups
              [mkPluginInfo "a" None None (Some "instance")]
              registry_with_plugin_group)) /\
  instance_config
    (fst (registerPluginConfigGroups
            ([mkPluginInfo "a" None None (Some "instance")]
               ++ [mkPluginInfo "q" None (Some 4) (Some "instance")])
            registry_with_plugin_group))
  = instance_config
      (fst (registerPluginConfigGroups
              [mkPluginInfo "a" None None (Some "instance")]
              registry_with_plugin_group)) /\
  (exists sf,
      registerPluginConfigGroups
        ([mkPluginInfo "a" None None (Some "instance")]
           ++ [mkPluginInfo "p" None (Some 4) (Some "instance")])
        registry_with_plugin_group
      = (sf, Returns tt) /\
      groups (instance_config sf)
      = (groups (instance_config
                   (fst (registerPluginConfigGroups
                           [mkPluginInfo "a" None None (Some "instance")]
                           registry_with_plugin_group)))
         ++ [(Some "p", 4)])%list) /\
  group_names
    (instance_config
       (fst (registerPluginConfigGroups
               [mkPluginInfo "a" None None (Some "instance");
                mkPluginInfo "b" None (Some 4) None;
                mkPluginInfo "c" None None (Some "");
                mkPluginInfo "p" None (Some 4) (Some "instance")]
               registry_with_plugin_group)))
  = [Some "instance"; Some "factorio"; Some "a"; Some "p"].
Proof.
  pose (s1 := fst (registerPluginConfigGroups
                     [mkPluginInfo "a" None None (Some "instance")]
                     registry_with_plugin_group)).
  assert (Hb : registerPluginConfigGroups
                 [mkPluginInfo "a" None None (Some "instance")]
                 registry_with_plugin_group
               = (s1, Returns tt)) by (vm_compute; reflexivity).
  destruct C4_instance_group_of_a_reached_descriptor
    as (A & C & E & B & D).
  split; [|split; [|split]].
  - refine (proj1 (A _ (mkPluginInfo "b" None (Some 4) None) _ s1 _ _
                     Hb _ eq_refl)).
    apply surjective_pairing.
  - refine (C _ (mkPluginInfo "q" None (Some 4) (Some "instance")) _ s1 _
              (Error "Expected InstanceConfigGroup for q to be named after the plugin")
              Hb _).
    vm_compute. reflexivity.
  - destruct (B _ (mkPluginInfo "p" None (Some 4) (Some "instance")) _ s1
                Hb) as [sf Hf].
    + vm_compute. reflexivity.
    + vm_compute. reflexivity.
    + unfold registrable, valid_supply.
      cbn [name MasterConfigGroup InstanceConfigGroup instanceEntrypoint].
      split; [vm_compute; reflexivity|]. split; [exact I|].
      intros _. split; [vm_compute; reflexivity|].
      exists (nth 4 (classes s1) (synthesized "")).
      repeat split; vm_compute; reflexivity.
    + exists sf. split; [exact Hf|].
      exact (E _ (mkPluginInfo "p" None (Some 4) (Some "instance")) _ s1
               sf Hb Hf eq_refl).
  - exact (D [mkPluginInfo "a" None None (Some "instance");
              mkPluginInfo "b" None (Some 4) None;
              mkPluginInfo "c" None None (Some "");
              mkPluginInfo "p" None (Some 4) (Some "instance")]
             registry_with_plugin_group _
             ltac:(vm_compute; reflexivity)).
Defined.

(* ================================================================== *)
(** * Further properties of the config command *)

Section ConfigCommandMore.

Variable St : Type.
Variable stringify : jsval -> string.
Variable stringify_indented : nat -> jsval -> string.
Variable instance : ConfigInstance St.
Variable configPath : string.

Lemma for_of_app {A : Type} (l1 l2 : list A)
      (body : A -> M (World St) unit) (w : World St) :
  for_of (l1 ++ l2) body w
  = bind (for_of l1 body) (fun _ => for_of l2 body) w.
Proof.
  revert w. induction l1 as [|x l1 IH]; intros w; simpl.
  - reflexivity.
  - rewrite !bind_eq. destruct (body x w) as [w1 [[]|e]];
      [apply IH | reflexivity].
Qed.

Lemma for_of_nested (gs : list GroupClass)
      (body : FieldDefinition -> M (World St) unit) (w : World St) :
  for_of gs (fun G => for_of (definitions G) body) w
  = for_of (flat_map definitions gs) body w.
Proof.
  revert w. induction gs as [|g gs IH]; intros w; simpl.
  - reflexivity.
  - rewrite for_of_app, !bind_eq.
    destruct (for_of (definitions g) body w) as [w1 [[]|e]];
      [apply IH | reflexivity].
Qed.

Lemma run_list (args : Args) (w : World St) :
  command_of args = VStr "list" ->
  handleConfigCommand stringify stringify_indented args instance
                      configPath w
  = for_of (all_definitions instance) (list_body stringify instance) w.
Proof.
  intros C. unfold handleConfigCommand, command_of in *. rewrite C.
  cbn [strict_eq_str String.eqb Ascii.eqb Bool.eqb].
  apply for_of_nested.
Qed.

Lemma run_other (args : Args) (w : World St) :
  strict_eq_str (command_of args) "list" = false ->
  strict_eq_str (command_of args) "show" = false ->
  strict_eq_str (command_of args) "set" = false ->
  handleConfigCommand stringify stringify_indented args instance
                      configPath w
  = (w, Returns tt).
Proof.
  intros L Sh Se. unfold handleConfigCommand. fold (command_of args).
  rewrite L, Sh, Se. reflexivity.
Qed.

Lemma list_body_eq (d : FieldDefinition) (w : World St) :
  list_body stringify instance d w
  = (mkWorld (values w) (files w)
             (trace w ++ listed stringify instance (values w) d),
     match get instance (VStr (fullName d)) (values w) with
     | Returns _ => Returns tt
     | Throws e => Throws e
     end).
Proof.
  unfold listed.
  cbv beta iota zeta delta
      [list_body bind instance_get console_log act modify].
  cbn [values files trace].
  destruct (get instance (VStr (fullName d)) (values w)) as [v|e];
    [|reflexivity].
  cbn [values files trace]. rewrite <- app_assoc. reflexivity.
Qed.

Lemma for_of_listed (ds : list FieldDefinition) :
  forall w : World St,
    (forall d, In d ds ->
       exists v, get instance (VStr (fullName d)) (values w) = Returns v) ->
    for_of ds (list_body stringify instance) w
    = (mkWorld (values w) (files w)
               (trace w
                ++ flat_map (listed stringify instance (values w)) ds),
       Returns tt).
Proof.
  induction ds as [|d ds IH]; intros w H; simpl.
  - rewrite app_nil_r. destruct w; reflexivity.
  - rewrite bind_eq, list_body_eq.
    destruct (H d (or_introl eq_refl)) as [v Hv]. rewrite Hv.
    rewrite IH; cbn [values files trace].
    + rewrite <- app_assoc. reflexivity.
    + intros d' Hd. apply H. right. exact Hd.
Qed.

Lemma for_of_keeps (ds : list FieldDefinition) :
  forall w : World St,
    values (fst (for_of ds (list_body stringify instance) w)) = values w /\
    files (fst (for_of ds (list_body stringify instance) w)) = files w.
Proof.
  induction ds as [|d ds IH]; intros w; simpl.
  - auto.
  - rewrite bind_eq, list_body_eq.
    destruct (get instance (VStr (fullName d)) (values w)) as [v|e].
    + destruct (IH (mkWorld (values w) (files w)
                      (trace w
                       ++ listed stringify instance (values w) d)))
        as [V F].
      cbn [values files] in V, F. auto.
    + auto.
Qed.

(** X11.  The "list" command, when [instance.get] returns for every
    field: the handler walks the groups of the instance's class in order
    and, within each, its definitions in order; for each it calls [get]
    with the full name and prints one line, the full name, a space and
    the JSON text of the value; then it returns.  With no groups or no
    definitions it prints nothing. *)
Theorem X11_list_prints_every_field (args : Args) (w : World St) :
  command_of args = VStr "list" ->
  (forall d, In d (all_definitions instance) ->
     exists v, get instance (VStr (fullName d)) (values w) = Returns v) ->
  handleConfigCommand stringify stringify_indented args instance
                      configPath w
  = (mkWorld (values w) (files w)
       (trace w
        ++ flat_map
             (fun d =>
                match get instance (VStr (fullName d)) (values w) with
                | Returns v =>
                    [CallGet (VStr (fullName d));
                     ConsoleLog
                       (VStr (fullName d ++ " " ++ stringify v))]
                | Throws _ => [CallGet (VStr (fullName d))]
                end)
             (all_definitions instance)),
     Returns tt).
Proof.
  intros C H. rewrite (run_list args w C). apply for_of_listed. exact H.
Qed.

(** X12.  The "list" command has no handler for exceptions: the first
    field for which [instance.get] throws ends the command with that
    exception, InvalidField included, after the lines of the fields
    before it have been printed; the fields after it are not looked at. *)
Theorem X12_list_stops_at_first_exception
        (args : Args) (w : World St)
        (before after : list FieldDefinition) (d : FieldDefinition)
        (e : exn) :
  command_of args = VStr "list" ->
  all_definitions instance = (before ++ d :: after)%list ->
  (forall d', In d' before ->
     exists v, get instance (VStr (fullName d')) (values w) = Returns v) ->
  get instance (VStr (fullName d)) (values w) = Throws e ->
  handleConfigCommand stringify stringify_indented args instance
                      configPath w
  = (mkWorld (values w) (files w)
       (trace w
        ++ flat_map (listed stringify instance (values w)) before
        ++ [CallGet (VStr (fullName d))]),
     Throws e).
Proof.
  intros C E H T. rewrite (run_list args w C), E, for_of_app.
  rewrite (bind_returns _ _ _ (for_of_listed before w H)).
  simpl. apply bind_throws. rewrite list_body_eq.
  cbn [values files trace]. unfold listed at 2. rewrite T.
  rewrite <- app_assoc. reflexivity.
Qed.

Lemma read_file_other (path other data : string) (fs : Files) :
  other <> path ->
  read_file other (write_file path data fs) = read_file other fs.
Proof.
  intros D. unfold read_file, write_file. simpl.
  assert (N : String.eqb path other = false)
    by (apply String.eqb_neq; congruence).
  rewrite N. f_equal.
  induction (contents fs) as [|x l IH]; simpl; [reflexivity|].
  destruct (String.eqb (fst x) path) eqn:P; simpl.
  - apply String.eqb_eq in P.
    assert (N' : String.eqb (fst x) other = false)
      by (apply String.eqb_neq; congruence).
    rewrite N'. exact IH.
  - destruct (String.eqb (fst x) other); [reflexivity | exact IH].
Qed.

(** X13.  What the handler leaves alone.  Whatever the command and the
    outcome, no file other than [configPath] changes; and unless the
    command is "set", no file changes at all and the values of the
    instance are those [instance.get] and [instance.serialize] left
    them, that is, unchanged. *)
Theorem X13_handler_frame (args : Args) (w : World St) :
  (forall path,
      path <> configPath ->
      read_file path
        (files (fst (handleConfigCommand stringify stringify_indented args
                                         instance configPath w)))
      = read_file path (files w)) /\
  (command_of args <> VStr "set" ->
   files (fst (handleConfigCommand stringify stringify_indented args
                                   instance configPath w))
   = files w /\
   values (fst (handleConfigCommand stringify stringify_indented args
                                    instance configPath w))
   = values w).
Proof.
  destruct (strict_eq_str (command_of args) "list") eqn:L.
  { apply strict_eq_str_true in L. rewrite (run_list args w L).
    destruct (for_of_keeps (all_definitions instance) w) as [V F].
    split; [intros path _; rewrite F; reflexivity | auto]. }
  destruct (strict_eq_str (command_of args) "show") eqn:Sh.
  { apply strict_eq_str_true in Sh. rewrite (run_show _ _ _ _ _ w Sh).
    destruct (get instance (field args) (values w)) as [v|e];
      [|destruct e]; cbn [fst files values]; auto. }
  destruct (strict_eq_str (command_of args) "set") eqn:Se.
  { apply strict_eq_str_true in Se. rewrite (run_set _ _ _ _ _ w Se).
    split; [|congruence]. intros path D.
    destruct (set instance (field args) (value_to_set args) (values w))
      as [st o].
    destruct o as [[]|e];
      [destruct (write_error configPath (files w))|destruct e];
      cbn [fst files]; try reflexivity. apply read_file_other. exact D. }
  rewrite (run_other args w L Sh Se). auto.
Qed.

(** X14.  The "set" command and other exceptions: an exception of
    [instance.set] that is neither InvalidField nor InvalidValue leaves
    the handler uncaught; nothing is serialized, written or printed. *)
Theorem X14_set_rethrows_other_exceptions
        (args : Args) (w : World St) (st : St) (e : exn) :
  command_of args = VStr "set" ->
  set instance (field args) (value_to_set args) (values w)
  = (st, Throws e) ->
  (forall message, e <> InvalidField message) ->
  (forall message, e <> InvalidValue message) ->
  handleConfigCommand stringify stringify_indented args instance
                      configPath w
  = (mkWorld st (files w)
             (trace w ++ [CallSet (field args) (value_to_set args)]),
     Throws e).
Proof.
  intros C H NF NV. rewrite (run_set _ _ _ _ _ w C), H.
  destruct e; try reflexivity; exfalso;
    [eapply NF | eapply NV]; reflexivity.
Qed.

(** X15.  The "set" command replaces only an undefined value: a value
    that is given, also null, false, zero or the empty string, is handed
    to [instance.set] as it is, in the handler's only call of [set]. *)
Theorem X15_set_passes_defined_values_unchanged
        (args : Args) (w : World St) :
  command_of args = VStr "set" ->
  value args <> VUndefined ->
  exists rest,
    trace (fst (handleConfigCommand stringify stringify_indented args
                                    instance configPath w))
    = (trace w ++ CallSet (field args) (value args) :: rest)%list /\
    forallb (fun a => negb (is_call_set a)) rest = true.
Proof.
  intros C D.
  assert (V : value_to_set args = value args).
  { unfold value_to_set. destruct (value args); try reflexivity.
    contradiction. }
  rewrite (run_set _ _ _ _ _ w C), V.
  destruct (set instance (field args) (value args) (values w)) as [st o].
  destruct o as [[]|e];
    [destruct (write_error configPath (files w))|destruct e];
    cbn [fst trace];
    rewrite <- ?app_assoc; eexists; (split; [reflexivity|reflexivity]).
Qed.

End ConfigCommandMore.

Lemma X13_witness :
  files (fst (handleConfigCommand plain_json (fun _ => plain_json)
                (mkArgs [VStr "config"; VStr "list"] VUndefined VUndefined)
                example_instance "instance.json" example_world))
  = files example_world.
Proof.
  exact (proj1 (proj2 (@X13_handler_frame Values plain_json
                         (fun _ => plain_json)
                         example_instance "instance.json"
                         (mkArgs [VStr "config"; VStr "list"]
                                 VUndefined VUndefined)
                         example_world)
                      ltac:(discriminate))).
Defined.

Lemma X11_witness :
  snd (handleConfigCommand plain_json (fun _ => plain_json)
         (mkArgs [VStr "config"; VStr "list"] VUndefined VUndefined)
         example_instance "instance.json" example_world)
  = Returns tt.
Proof.
  refine (f_equal snd
            (@X11_list_prints_every_field Values plain_json
               (fun _ => plain_json) example_instance "instance.json"
               (mkArgs [VStr "config"; VStr "list"] VUndefined VUndefined)
               example_world eq_refl _)).
  intros d H. vm_compute in H.
  repeat (destruct H as [<- | H]; [eexists; vm_compute; reflexivity|]).
  contradiction.
Defined.

Lemma X12_witness :
  snd (handleConfigCommand plain_json (fun _ => plain_json)
         (mkArgs [VStr "config"; VStr "list"] VUndefined VUndefined)
         stale_instance "instance.json" example_world)
  = Throws (InvalidField "factorio.version").
Proof.
  refine (f_equal snd
            (@X12_list_stops_at_first_exception Values plain_json
               (fun _ => plain_json) stale_instance "instance.json"
               (mkArgs [VStr "config"; VStr "list"] VUndefined VUndefined)
               example_world
               (firstn 3 (all_definitions stale_instance))
               (skipn 4 (all_definitions stale_instance))
               (nth 3 (all_definitions stale_instance)
                    (mkDefinition "" (mkField "" None None TString false
                                              NoInitialValue)))
               (InvalidField "factorio.version")
               eq_refl _ _ _)).
  - vm_compute. reflexivity.
  - intros d H. vm_compute in H.
    repeat (destruct H as [<- | H]; [eexists; vm_compute; reflexivity|]).
    contradiction.
  - vm_compute. reflexivity.
Defined.

Lemma X14_witness :
  handleConfigCommand plain_json (fun _ => plain_json)
    (mkArgs [VStr "config"; VStr "set"] (VStr "instance.name") (VStr "x"))
    broken_instance "instance.json" example_world
  = (mkWorld (values example_world) (files example_world)
       (trace example_world
        ++ [CallSet (VStr "instance.name") (VStr "x")]),
     Throws (TypeError "this._values is undefined")).
Proof.
  exact (@X14_set_rethrows_other_exceptions Values plain_json
           (fun _ => plain_json) broken_instance "instance.json"
           (mkArgs [VStr "config"; VStr "set"]
                   (VStr "instance.name") (VStr "x"))
           example_world (values example_world)
           (TypeError "this._values is undefined")
           eq_refl eq_refl
           ltac:(intros message; discriminate)
           ltac:(intros message; discriminate)).
Defined.

Lemma X15_witness :
  exists rest,
    trace (fst (handleConfigCommand plain_json (fun _ => plain_json)
                  (mkArgs [VStr "config"; VStr "set"]
                          (VStr "instance.id") (VNum 0))
                  example_instance "instance.json" example_world))
    = (trace example_world
       ++ CallSet (VStr "instance.id") (VNum 0) :: rest)%list /\
    forallb (fun a => negb (is_call_set a)) rest = true.
Proof.
  exact (@X15_set_passes_defined_values_unchanged Values plain_json
           (fun _ => plain_json) example_instance "instance.json"
           (mkArgs [VStr "config"; VStr "set"]
                   (VStr "instance.id") (VNum 0))
           example_world eq_refl ltac:(discriminate)).
Defined.

(* ================================================================== *)
(** * The commands declared and the commands handled *)

(** X16.  [configCommand] keeps the commands a builder already has and
    declares three more, "set" with a required field and an optional
    value, "show" with a required field, and "list"; it demands one
    command and turns strict mode on.  These three are all the handler
    knows: when [args._[1]] is not the command word of a command declared
    by [configCommand], [handleConfigCommand] does nothing. *)
Theorem X16_configCommand_declares_the_handled_commands :
  (forall yargs,
      declared (configCommand yargs)
      = (declared yargs
         ++ [("set <field> [value]", "Set config field");
             ("show <field>", "Show value of the given config field");
             ("list", "List all configuration fields and their values")])%list
      /\
      demanded (configCommand yargs)
      = Some (1, "You need to specify a command to run") /\
      strict_mode (configCommand yargs) = true) /\
  map (fun c => command_word (fst c))
      (declared (configCommand (mkYargs [] None false)))
  = ["set"; "show"; "list"] /\
  (forall (St : Type) (stringify : jsval -> string)
          (stringify_indented : nat -> jsval -> string) (args : Args)
          (instance : ConfigInstance St) (configPath : string)
          (w : World St),
      (forall usage description,
          In (usage, description)
             (declared (configCommand (mkYargs [] None false))) ->
          command_of args <> VStr (command_word usage)) ->
      handleConfigCommand stringify stringify_indented args instance
                          configPath w
      = (w, Returns tt)).
Proof.
  split; [|split].
  - intros yargs. unfold configCommand, yargs_strict, yargs_demandCommand,
      yargs_command. cbn [declared demanded strict_mode].
    rewrite <- !app_assoc. auto.
  - reflexivity.
  - intros St stringify stringify_indented args instance configPath w H.
    apply run_other; apply strict_eq_str_false.
    + apply (H "list" "List all configuration fields and their values").
      simpl. auto.
    + apply (H "show <field>" "Show value of the given config field").
      simpl. auto.
    + apply (H "set <field> [value]" "Set config field").
      simpl. auto.
Qed.

Lemma X16_witness :
  handleConfigCommand plain_json (fun _ => plain_json)
    (mkArgs [VStr "config"; VStr "get"] (VStr "instance.name") VUndefined)
    example_instance "instance.json" example_world
  = (example_world, Returns tt).
Proof.
  refine (proj2 (proj2 X16_configCommand_declares_the_handled_commands)
            Values plain_json (fun _ => plain_json)
            (mkArgs [VStr "config"; VStr "get"]
                    (VStr "instance.name") VUndefined)
            example_instance "instance.json" example_world _).
  intros usage description H. simpl in H.
  destruct H as [H | [H | [H | []]]]; inversion H; subst;
    discriminate.
Defined.
